(** * HashTable.cpp: a chained hash table of courses

    A shallow embedding of [src/HashTable.cpp] (class [HashTable] with its
    [Node] chains, [hash], [Insert], [Search], [Sort] and [Resize]) and the
    properties of it that the design document states.

    Machine model.  The embedding follows the usual LP64 data model: [int]
    and [unsigned int] are 32 bits wide, [size_t] is 64 bits wide, [char] is
    a signed 8-bit type.  Unsigned arithmetic wraps modulo [2^32]; signed
    arithmetic is modelled with the two's-complement wrap-around that the
    generated code performs.  Faults of the program (a division by zero, an
    access outside a vector) are results of type [fault]. *)

From Stdlib Require Import ZArith Znumtheory Lia String Ascii Sorted Permutation.
From Stdlib Require Import OrdersEx.
From stdpp Require Import base tactics option list strings sorting.

Local Open Scope Z_scope.

(** ** Machine integers *)

Module Machine.

Definition UINT_MAX : Z := 2 ^ 32 - 1.

(** [unsigned int]: arithmetic modulo [2^32]. *)
Definition wrap_uint (z : Z) : Z := z mod 2 ^ 32.

(** [int]: two's-complement wrap-around into [[-2^31, 2^31)]. *)
Definition wrap_int (z : Z) : Z := (z + 2 ^ 31) mod 2 ^ 32 - 2 ^ 31.

(** Conversion of an integer value to [size_t]. *)
Definition to_size_t (z : Z) : Z := z mod 2 ^ 64.

(** [int(ch)] for a (signed) [char]. *)
Definition char_code (ch : ascii) : Z :=
  let n := Z.of_N (N_of_ascii ch) in
  if n <? 128 then n else n - 256.

End Machine.
Import Machine.

(** ** Faults and the error monad *)

Inductive fault : Type :=
| DivisionByZero   (* [x % 0] *)
| OutOfBounds      (* [v[i]] with [i >= v.size()] *)
| OutOfFuel.       (* the call depth allowed to the model is used up *)

Definition result (A : Type) : Type := A + fault.

Definition ok {A} (a : A) : result A := inl a.
Definition raise {A} (f : fault) : result A := inr f.

Definition bind {A B} (r : result A) (k : A → result B) : result B :=
  match r with
  | inl a => k a
  | inr f => inr f
  end.

Declare Scope result_scope.
Delimit Scope result_scope with result.
Notation "x <- r ;; k" := (bind r (λ x, k))
  (at level 100, r at next level, right associativity) : result_scope.
Local Open Scope result_scope.

(** ** Data model *)

(** [struct Course]. *)
Record Course : Type := mkCourse {
  courseId : string;
  courseTitle : string;
  prerequisites : list string
}.

(** [Course()]: every member default-constructed. *)
Definition Course_default : Course :=
  {| courseId := ""; courseTitle := ""; prerequisites := [] |}.

(** [struct Node]: a course, the bucket key and the owned [next] node.
    [next = None] is [nullptr]. *)
#[local] Unset Elimination Schemes.
Inductive Node : Type :=
| mkNode (course : Course) (key : Z) (next : option Node).
#[local] Set Elimination Schemes.

Definition course (n : Node) : Course := match n with mkNode c _ _ => c end.
Definition key (n : Node) : Z := match n with mkNode _ k _ => k end.
Definition next (n : Node) : option Node := match n with mkNode _ _ p => p end.

(** [Node()]. *)
Definition Node_default : Node := mkNode Course_default UINT_MAX None.
(** [Node(aCourse, aKey)]; [aKey] is an [int] converted to [unsigned int]. *)
Definition Node_of (aCourse : Course) (aKey : Z) : Node :=
  mkNode aCourse (wrap_uint aKey) None.

(** The data members of [class HashTable].  [loadFactor] is written by
    [Insert] and read only by the test that follows the write, so it is
    not a part of the state (see [load_factor_reached]). *)
Record HashTable : Type := mkHashTable {
  nodes : list Node;
  tableSize : Z;
  numEntries : Z
}.

(** [HashTable::HashTable(unsigned int size)]: [nodes.resize(tableSize)]
    on an empty vector makes [size] default nodes, and the loop assigns
    [Node()] to each of them again. *)
Definition HashTable_new (size : Z) : HashTable :=
  {| nodes := (λ _, Node_default) <$> replicate (Z.to_nat size) Node_default;
     tableSize := size;
     numEntries := 0 |}.

Definition DEFAULT_SIZE : Z := 179.

(** [HashTable::HashTable()]. *)
Definition HashTable_default : HashTable := HashTable_new DEFAULT_SIZE.

(** ** [HashTable::hash] *)

(** The loop over the characters of [courseId], on the [int] variable
    [key]: [key += int(courseId[i]); key *= key;]. *)
Fixpoint hash_loop (courseId : string) (key : Z) : Z :=
  match courseId with
  | EmptyString => key
  | String ch rest =>
      let key := wrap_int (key + char_code ch) in
      let key := wrap_int (key * key) in
      hash_loop rest key
  end.

(** [hash = key % nodes.size()]: the [int] is converted to [size_t], the
    remainder is stored into an [unsigned int]. *)
Definition hash (t : HashTable) (courseId : string) : result Z :=
  let key := hash_loop courseId 0 in
  let size := Z.of_nat (length (nodes t)) in
  if size =? 0 then raise DivisionByZero
  else ok (wrap_uint (to_size_t key mod size)).

(** The algorithm as the design document words it: an accumulator of an
    unsigned fixed-width type, starting at 0; for each character add its
    code, then square; at the end reduce modulo the capacity. *)
Fixpoint hash_reference_loop (courseId : string) (acc : Z) : Z :=
  match courseId with
  | EmptyString => acc
  | String ch rest =>
      let acc := wrap_uint (acc + Z.of_N (N_of_ascii ch)) in
      let acc := wrap_uint (acc * acc) in
      hash_reference_loop rest acc
  end.

Definition hash_reference (courseId : string) (capacity : Z) : Z :=
  hash_reference_loop courseId 0 mod capacity.

(** ** Access to the bucket vector *)

(** [nodes[key]] for an [int key]: the index is converted to [size_t];
    an index outside the vector is a fault. *)
Definition node_at (v : list Node) (aKey : Z) : result Node :=
  if to_size_t aKey <? Z.of_nat (length v)
  then match v !! Z.to_nat (to_size_t aKey) with
       | Some n => ok n
       | None => raise OutOfBounds
       end
  else raise OutOfBounds.

(** [nodes.resize(n)]: keeps the first [n] elements, pads with [Node()]. *)
Definition vector_resize (n : nat) (v : list Node) : list Node :=
  take n v ++ replicate (n - length v)%nat Node_default.

(** ** [HashTable::Insert] and [HashTable::Resize] *)

(** [while (current->next != nullptr) current = current->next;
    current->next = newNode]. *)
Fixpoint append_node (current newNode : Node) : Node :=
  match current with
  | mkNode c k None => mkNode c k (Some newNode)
  | mkNode c k (Some nx) => mkNode c k (Some (append_node nx newNode))
  end.

(** The first part of [Insert], up to and including [numEntries += 1]. *)
Definition Insert_place (aCourse : Course) (t : HashTable) : result HashTable :=
  h <- hash t (courseId aCourse) ;;
  let aKey := wrap_int h in
  current <- node_at (nodes t) aKey ;;
  let placed :=
    if key current =? UINT_MAX then Node_of aCourse aKey
    else append_node current (Node_of aCourse aKey) in
  ok {| nodes := <[Z.to_nat (to_size_t aKey) := placed]> (nodes t);
        tableSize := tableSize t;
        numEntries := wrap_int (numEntries t + 1) |}.

(** [loadFactor = double(numEntries) / tableSize; loadFactor >= 1.0].
    Both operands are 32-bit integers, hence exact as doubles, and the
    correctly rounded quotient of two such numbers is at least [1.0]
    exactly when the dividend is at least the (positive) divisor; a
    positive dividend over zero is [+inf]. *)
Definition load_factor_reached (numEntries tableSize : Z) : bool :=
  if tableSize =? 0 then 0 <? numEntries
  else tableSize <=? numEntries.

(** The [for] loop of the prime search: [i] runs from its start value
    while [i <= newSize / 2]; each [i] that divides [newSize] bumps
    [newSize] and the loop goes on with the next [i] ([continue] applies
    to the [for] loop).  [steps] bounds the number of iterations. *)
Fixpoint prime_scan (steps : nat) (i newSize : Z) : option Z :=
  if i <=? newSize / 2 then
    match steps with
    | O => None
    | S steps' =>
        let newSize := if newSize mod i =? 0 then wrap_uint (newSize + 1)
                       else newSize in
        prime_scan steps' (i + 1) newSize
    end
  else Some newSize.

(** The size that [Resize] chooses: [newSize = tableSize * 2], then the
    body of [while (!isPrime)], which runs once since it ends with
    [isPrime = true]. *)
Definition new_size (tableSize : Z) : option Z :=
  let newSize := wrap_uint (tableSize * 2) in
  prime_scan (Z.to_nat newSize) 2 newSize.

(** [Insert(n.course)], then the same for every node after [n]. *)
Fixpoint reinsert_chain (ins : Course → HashTable → result HashTable)
    (n : Node) (t : HashTable) : result HashTable :=
  match n with
  | mkNode c _ p =>
      t <- ins c t ;;
      match p with
      | None => ok t
      | Some n' => reinsert_chain ins n' t
      end
  end.

(** The loop of [Resize] over the buckets of [temp]. *)
Fixpoint reinsert (ins : Course → HashTable → result HashTable)
    (temp : list Node) (t : HashTable) : result HashTable :=
  match temp with
  | [] => ok t
  | n :: temp' =>
      t <- (if key n =? UINT_MAX then ok t else reinsert_chain ins n t) ;;
      reinsert ins temp' t
  end.

(** [Resize], with the [Insert] it calls as a parameter. *)
Definition Resize (ins : Course → HashTable → result HashTable)
    (t : HashTable) : result HashTable :=
  let temp := nodes t in
  match new_size (tableSize t) with
  | None => raise OutOfFuel
  | Some newSize =>
      let resized := vector_resize (Z.to_nat newSize) (nodes t) in
      reinsert ins temp
        {| nodes := (λ _, Node_default) <$> resized;
           tableSize := newSize;
           numEntries := 0 |}
  end.

(** [Insert].  [depth] bounds the nesting of [Insert] in [Resize] in
    [Insert]. *)
Fixpoint Insert (depth : nat) (aCourse : Course) (t : HashTable)
    : result HashTable :=
  match depth with
  | O => raise OutOfFuel
  | S depth' =>
      t <- Insert_place aCourse t ;;
      if load_factor_reached (numEntries t) (tableSize t)
      then Resize (Insert depth') t
      else ok t
  end.

(** The loop of [loadCourses]: one [Insert] for each course read. *)
Fixpoint loadCourses (depth : nat) (courses : list Course) (t : HashTable)
    : result HashTable :=
  match courses with
  | [] => ok t
  | c :: courses' => t <- Insert depth c t ;; loadCourses depth courses' t
  end.

(** ** [HashTable::Search] *)

(** [while (current->next != nullptr)] with its test of
    [current->next->course.courseId]; falling out of the loop returns the
    empty [course]. *)
Fixpoint Search_next (id : string) (current : Node) : Course :=
  match current with
  | mkNode _ _ None => Course_default
  | mkNode _ _ (Some nx) =>
      if String.eqb (courseId (course nx)) id then course nx
      else Search_next id nx
  end.

(** [Search] is a non-const member function: it returns the course
    together with the table it leaves behind. *)
Definition Search (id : string) (t : HashTable) : result (Course * HashTable) :=
  h <- hash t id ;;
  let aKey := wrap_int h in
  current <- node_at (nodes t) aKey ;;
  if key current =? UINT_MAX then ok (Course_default, t)
  else if String.eqb (courseId (course current)) id then ok (course current, t)
  else ok (Search_next id current, t).

(** The test of [main] on the course that [Search] returned:
    [!course.courseId.empty()]. *)
Definition is_found (c : Course) : bool := negb (String.eqb (courseId c) "").

(** ** [HashTable::Sort] *)

(** [push_back] of the course of [n] and of every node after it. *)
Fixpoint push_chain (n : Node) (sortCourses : list Course) : list Course :=
  match n with
  | mkNode c _ p =>
      let sortCourses := sortCourses ++ [c] in
      match p with
      | None => sortCourses
      | Some n' => push_chain n' sortCourses
      end
  end.

(** The first loop of [Sort]. *)
Definition Sort_collect (t : HashTable) (sortCourses : list Course) : list Course :=
  fold_left (λ acc n, if key n =? UINT_MAX then acc else push_chain n acc)
            (nodes t) sortCourses.

(** [less_than_key]. *)
Definition less_than_key (course1 course2 : Course) : bool :=
  String.ltb (courseId course1) (courseId course2).

(** [std::sort(first, last, comp)] is a library routine; what the C++
    standard promises of it is that the range afterwards holds the same
    elements and that no element is [comp]-less than one before it. *)
Definition std_sort {A} (comp : A → A → bool) (input output : list A) : Prop :=
  output ≡ₚ input ∧ StronglySorted (λ a b, comp b a = false) output.

(** [Sort(sortCourses)], as a relation between the vector passed in and
    the vector left in it. *)
Definition Sort (t : HashTable) (sortCourses output : list Course) : Prop :=
  std_sort less_than_key (Sort_collect t sortCourses) output.

(** The sorted enumeration, as [PrintAll] obtains it: [Sort] on an empty
    vector. *)
Definition AllSorted (t : HashTable) (output : list Course) : Prop :=
  Sort t [] output.

(** ** Views of a table used in the statements *)

(** The courses of the chain that starts at [n], head first. *)
Fixpoint chain_courses (n : Node) : list Course :=
  match n with
  | mkNode c _ p =>
      c :: match p with
           | None => []
           | Some n' => chain_courses n'
           end
  end.

(** The nodes of the chain that starts at [n], head first. *)
Fixpoint chain_nodes (n : Node) : list Node :=
  match n with
  | mkNode c k p =>
      mkNode c k p :: match p with
                      | None => []
                      | Some n' => chain_nodes n'
                      end
  end.

(** The courses of one bucket: none when the head is unused. *)
Definition bucket_courses (n : Node) : list Course :=
  if key n =? UINT_MAX then [] else chain_courses n.

Definition buckets (t : HashTable) : list (list Course) :=
  bucket_courses <$> nodes t.

(** The courses of the table in bucket-then-chain order. *)
Definition stored (t : HashTable) : list Course := concat (buckets t).

(** The chain of courses of the bucket with index [i]. *)
Definition chain_at (t : HashTable) (i : Z) : list Course :=
  default [] (buckets t !! Z.to_nat i).

(** An entry is occupied when its key is not the [UINT_MAX] mark. *)
Definition occupied (n : Node) : bool := negb (key n =? UINT_MAX).

(** The number of occupied entries among all nodes that can be reached
    from the bucket vector. *)
Definition occupied_entries (t : HashTable) : nat :=
  length (List.filter occupied (concat (chain_nodes <$> nodes t))).

(** The bucket index of an id in a table with [size] buckets. *)
Definition hash_index (size : Z) (id : string) : Z :=
  wrap_uint (to_size_t (hash_loop id 0) mod size).

Definition has_id (id : string) (c : Course) : bool :=
  String.eqb (courseId c) id.

(** The first course of a sequence that has the given id. *)
Definition first_with_id (id : string) (l : list Course) : option Course :=
  List.find (has_id id) l.

(** The courses of a sequence that have the given id, in order. *)
Definition all_with_id (id : string) (l : list Course) : list Course :=
  List.filter (has_id id) l.

(** A sequence of calls of [ins], threading the table. *)
Fixpoint insert_each (ins : Course → HashTable → result HashTable)
    (l : list Course) (t : HashTable) : result HashTable :=
  match l with
  | [] => ok t
  | c :: l' => t <- ins c t ;; insert_each ins l' t
  end.

(** Induction on chains. *)
Fixpoint Node_ind (P : Node → Prop)
    (Hlast : ∀ c k, P (mkNode c k None))
    (Hnext : ∀ c k n, P n → P (mkNode c k (Some n)))
    (n : Node) : P n :=
  match n with
  | mkNode c k None => Hlast c k
  | mkNode c k (Some n') => Hnext c k n' (Node_ind P Hlast Hnext n')
  end.

(** ** Well-formed tables *)

(** The bucket with index [i] of a table of [size] buckets: an unused
    head has no chain; in a used bucket every node is occupied and every
    course hashes to [i]. *)
Definition bucket_ok (size : Z) (i : nat) (n : Node) : Prop :=
  if key n =? UINT_MAX then next n = None
  else Forall (λ k, k ≠ UINT_MAX) (key <$> chain_nodes n)
       ∧ Forall (λ c, hash_index size (courseId c) = Z.of_nat i)
                (chain_courses n).

Record table_ok (t : HashTable) : Prop := {
  ok_size : Z.of_nat (length (nodes t)) = tableSize t;
  ok_capacity : 0 < tableSize t ≤ 2 ^ 31;
  ok_buckets : ∀ i n, nodes t !! i = Some n → bucket_ok (tableSize t) i n;
  ok_count : numEntries t = Z.of_nat (length (stored t))
}.

(** [t] holds the courses of [l], and for each id it holds the courses
    with that id in the order they have in [l]. *)
Record holds (l : list Course) (t : HashTable) : Prop := {
  holds_ok : table_ok t;
  holds_perm : stored t ≡ₚ l;
  holds_order : ∀ id, all_with_id id (stored t) = all_with_id id l
}.

(** A table between two calls of [Insert]: it holds [l] and has room. *)
Definition loaded (l : list Course) (t : HashTable) : Prop :=
  holds l t ∧ Z.of_nat (length l) < tableSize t.

(** The order of [std::sort] with [less_than_key]: [a] may stand before
    [b] when [b] is not less than [a]. *)
Definition key_le (a b : Course) : Prop := less_than_key b a = false.

#[local] Instance key_le_dec a b : Decision (key_le a b).
Proof. unfold key_le. apply _. Defined.

(** Non-decreasing ids, in the lexicographic order of strings. *)
Definition id_le (a b : Course) : Prop :=
  String.leb (courseId a) (courseId b) = true.

(** The ids made of 7-bit characters, for which [int(ch)] is the
    character code. *)
Fixpoint ascii_only (id : string) : bool :=
  match id with
  | EmptyString => true
  | String ch rest => (Z.of_N (N_of_ascii ch) <? 128) && ascii_only rest
  end.

(** ** Sample data *)

Definition CS101 : Course := mkCourse "CS101" "Introduction to Programming" [].
Definition CS101_again : Course :=
  mkCourse "CS101" "Programming, second edition" ["MATH201"%string].
Definition CS102 : Course := mkCourse "CS102" "Data Structures" ["CS101"%string].
Definition MATH201 : Course := mkCourse "MATH201" "Discrete Mathematics" [].
Definition unnamed : Course := mkCourse "" "A course without an id" [].

Definition table_with_unnamed : HashTable :=
  {| nodes := [mkNode unnamed 0 None; Node_default; Node_default];
     tableSize := 3;
     numEntries := 1 |}.

(** ** [displayCourse], [PrintAll] and the course menu of [main] *)

(** What [endl] writes. *)
Definition endl : string := String "010"%char EmptyString.

(** The loop of [displayCourse] over the prerequisites, from index [i]
    on: each one is written, and a comma after it unless [i + 1] is the
    size of the vector. *)
Fixpoint print_prerequisites (i size : nat) (rest : list string) : string :=
  match rest with
  | [] => ""
  | p :: rest' =>
      p +:+ (if (i + 1 =? size)%nat then "" else ", ")
        +:+ print_prerequisites (S i) size rest'
  end.

(** [displayCourse], as the text it writes to [cout]. *)
Definition displayCourse (aCourse : Course) : string :=
  " " +:+ courseId aCourse +:+ ", " +:+ courseTitle aCourse +:+ endl
  +:+ " Prerequisites: "
  +:+ print_prerequisites 0 (length (prerequisites aCourse))
        (prerequisites aCourse)
  +:+ endl.

(** One turn of the loop of [PrintAll]. *)
Definition print_line (aCourse : Course) : string :=
  " " +:+ courseId aCourse +:+ ", " +:+ courseTitle aCourse +:+ endl.

(** [PrintAll], as a relation between the table and the text written:
    [Sort] on an empty vector, then one line for each course of it. *)
Definition PrintAll (t : HashTable) (output : string) : Prop :=
  ∃ sortedCourses,
    Sort t [] sortedCourses
    ∧ output = String.concat "" (print_line <$> sortedCourses).

(** [islower] and [toupper] of the C library in the default locale, in
    which the lower-case letters are [a] to [z]. *)
Definition islower (ch : ascii) : bool :=
  let n := N_of_ascii ch in (97 <=? n)%N && (n <=? 122)%N.

Definition toupper (ch : ascii) : ascii :=
  if islower ch then ascii_of_N (N_of_ascii ch - 32) else ch.

(** The loop of [main] that builds [tempStr] from [courseKey]. *)
Fixpoint upper_case (courseKey : string) : string :=
  match courseKey with
  | EmptyString => EmptyString
  | String ch rest =>
      String (if islower ch then toupper ch else ch) (upper_case rest)
  end.

(** Case 3 of the menu of [main], after the key was read: the key is
    put in upper case and searched; the course found is displayed, or a
    message names the key that was not found. *)
Definition main_print_course (courseKey : string) (t : HashTable)
    : result (string * HashTable) :=
  let courseKey := upper_case courseKey in
  found <- Search courseKey t ;;
  if is_found found.1 then ok (displayCourse found.1, found.2)
  else ok ("Course ID " +:+ courseKey +:+ " not found." +:+ endl, found.2).

(** A string with a lower-case letter in it. *)
Fixpoint has_lower (s : string) : bool :=
  match s with
  | EmptyString => false
  | String ch rest => islower ch || has_lower rest
  end.

(** The table of three buckets after the insertion of CS102 and then
    of CS101, which share the last bucket. *)
Definition table_two_courses : HashTable :=
  {| nodes := [Node_default; Node_default;
               mkNode CS102 2 (Some (mkNode CS101 2 None))];
     tableSize := 3;
     numEntries := 2 |}.

(** ** [std::sort] of GNU libstdc++ *)

(** The body of [std::sort] is not in the repository.  To know what the
    call in [Sort] returns when the program is built with GNU libstdc++,
    this section follows the library's [bits/stl_algo.h]: [__sort] is
    [__introsort_loop] with the depth limit [2 * lg n], then
    [__final_insertion_sort].  A range is given by the indices of its
    ends in the vector [v].  [None] is a step outside the vector, or the
    heap sort that [__introsort_loop] takes when the depth limit is used
    up, which is not followed here. *)
Section libstdcxx_sort.
Context {A : Type} (comp : A → A → bool).

(** [std::iter_swap(i, j)]. *)
Definition iter_swap (i j : nat) (v : list A) : option (list A) :=
  x ← v !! i; y ← v !! j; Some (<[j:=x]> (<[i:=y]> v)).

(** [__move_median_to_first(result, a, b, c, comp)]. *)
Definition move_median_to_first (result a b c : nat) (v : list A)
    : option (list A) :=
  xa ← v !! a; xb ← v !! b; xc ← v !! c;
  if comp xa xb then
    if comp xb xc then iter_swap result b v
    else if comp xa xc then iter_swap result c v
    else iter_swap result a v
  else if comp xa xc then iter_swap result a v
  else if comp xb xc then iter_swap result c v
  else iter_swap result b v.

(** [while (comp(first, pivot)) ++first]. *)
Fixpoint partition_up (steps first pivot : nat) (v : list A) : option nat :=
  x ← v !! first; p ← v !! pivot;
  if comp x p then
    match steps with
    | O => None
    | S steps' => partition_up steps' (S first) pivot v
    end
  else Some first.

(** [while (comp(pivot, last)) --last]. *)
Fixpoint partition_down (steps last pivot : nat) (v : list A) : option nat :=
  x ← v !! last; p ← v !! pivot;
  if comp p x then
    match steps, last with
    | S steps', S last' => partition_down steps' last' pivot v
    | _, _ => None
    end
  else Some last.

(** [__unguarded_partition(first, last, pivot, comp)]: the index it
    returns and the vector it leaves. *)
Fixpoint unguarded_partition (steps first last pivot : nat) (v : list A)
    : option (nat * list A) :=
  match steps with
  | O => None
  | S steps' =>
      first ← partition_up (length v) first pivot v;
      match last with
      | O => None
      | S last =>
          last ← partition_down (length v) last pivot v;
          if negb (first <? last)%nat then Some (first, v)
          else v ← iter_swap first last v;
               unguarded_partition steps' (S first) last pivot v
      end
  end.

(** [__unguarded_partition_pivot(first, last, comp)]. *)
Definition unguarded_partition_pivot (first last : nat) (v : list A)
    : option (nat * list A) :=
  let mid := (first + (last - first) / 2)%nat in
  v ← move_median_to_first first (first + 1)%nat mid (last - 1)%nat v;
  unguarded_partition (S (length v)) (first + 1)%nat last first v.

(** [__introsort_loop(first, last, depth_limit, comp)]: a turn of its
    loop sorts the upper part by a call of its own and goes on with the
    lower part, both with the depth limit one less. *)
Fixpoint introsort_loop (depth_limit first last : nat) (v : list A)
    : option (list A) :=
  if (16 <? last - first)%nat then
    match depth_limit with
    | O => None
    | S depth_limit =>
        cut ← unguarded_partition_pivot first last v;
        v ← introsort_loop depth_limit cut.1 last cut.2;
        introsort_loop depth_limit first cut.1 v
    end
  else Some v.

(** The loop of [__unguarded_linear_insert(last, comp)], with [val] the
    element taken out at [last]. *)
Fixpoint unguarded_linear_insert_loop (steps : nat) (val : A) (last : nat)
    (v : list A) : option (list A) :=
  match last with
  | O => None
  | S next =>
      x ← v !! next;
      if comp val x then
        match steps with
        | O => None
        | S steps' =>
            unguarded_linear_insert_loop steps' val next (<[last:=x]> v)
        end
      else Some (<[last:=val]> v)
  end.

Definition unguarded_linear_insert (last : nat) (v : list A)
    : option (list A) :=
  val ← v !! last; unguarded_linear_insert_loop (length v) val last v.

(** One turn of the loop of [__insertion_sort]: an element less than the
    first one is moved to the front, the elements before it one place up;
    any other element is inserted by [__unguarded_linear_insert]. *)
Definition insertion_step (first i : nat) (v : list A) : option (list A) :=
  x ← v !! i; f ← v !! first;
  if comp x f
  then Some (take first v ++ x :: take (i - first) (drop first v)
               ++ drop (S i) v)
  else unguarded_linear_insert i v.

Fixpoint insertion_loop (count first i : nat) (v : list A)
    : option (list A) :=
  match count with
  | O => Some v
  | S count' =>
      v ← insertion_step first i v; insertion_loop count' first (S i) v
  end.

(** [__insertion_sort(first, last, comp)]. *)
Definition insertion_sort (first last : nat) (v : list A) : option (list A) :=
  if (first =? last)%nat then Some v
  else insertion_loop (last - (first + 1)) first (first + 1)%nat v.

Fixpoint unguarded_insertion_loop (count i : nat) (v : list A)
    : option (list A) :=
  match count with
  | O => Some v
  | S count' =>
      v ← unguarded_linear_insert i v; unguarded_insertion_loop count' (S i) v
  end.

(** [__unguarded_insertion_sort(first, last, comp)]. *)
Definition unguarded_insertion_sort (first last : nat) (v : list A)
    : option (list A) :=
  unguarded_insertion_loop (last - first) first v.

(** [__final_insertion_sort(first, last, comp)]. *)
Definition final_insertion_sort (first last : nat) (v : list A)
    : option (list A) :=
  if (16 <? last - first)%nat then
    v ← insertion_sort first (first + 16)%nat v;
    unguarded_insertion_sort (first + 16)%nat last v
  else insertion_sort first last v.

(** [std::sort(v.begin(), v.end(), comp)]. *)
Definition libstdcxx_sort (v : list A) : option (list A) :=
  let n := length v in
  if (n =? 0)%nat then Some v
  else v ← introsort_loop (Nat.log2 n * 2) 0%nat n v;
       final_insertion_sort 0%nat n v.

End libstdcxx_sort.

#[local] Instance Course_eq_dec : EqDecision Course.
Proof. solve_decision. Defined.

(** Seventeen courses with the id CS101, with the titles A to Q. *)
Definition CS101_sections : list Course :=
  (λ i, mkCourse "CS101" (String (ascii_of_nat (65 + i)) EmptyString) [])
    <$> seq 0 17.

(** Two courses with the id B and one with the id C.  The ids B and C
    fall into different buckets of a table of three buckets and into the
    same bucket of a table of seven. *)
Definition B_first : Course := mkCourse "B" "Biology" [].
Definition B_second : Course := mkCourse "B" "Botany" [].
Definition C_other : Course := mkCourse "C" "Chemistry" [].

(** * Properties *)

(** ** The error monad *)

Lemma bind_ok {A B} (a : A) (k : A → result B) : bind (ok a) k = k a.
Proof. reflexivity. Qed.

Lemma bind_raise {A B} (f : fault) (k : A → result B) : bind (raise f) k = raise f.
Proof. reflexivity. Qed.

Lemma ok_inj {A} (a b : A) : ok a = ok b → a = b.
Proof. by intros [= ->]. Qed.

(** ** Machine integers *)

Lemma wrap_uint_small z : 0 ≤ z < 2 ^ 32 → wrap_uint z = z.
Proof. intros. unfold wrap_uint. apply Z.mod_small. lia. Qed.

Lemma wrap_uint_range z : 0 ≤ wrap_uint z < 2 ^ 32.
Proof. unfold wrap_uint. apply Z.mod_pos_bound. lia. Qed.

Lemma wrap_int_small z : - 2 ^ 31 ≤ z < 2 ^ 31 → wrap_int z = z.
Proof. intros. unfold wrap_int. rewrite Z.mod_small; lia. Qed.

Lemma to_size_t_small z : 0 ≤ z < 2 ^ 64 → to_size_t z = z.
Proof. intros. unfold to_size_t. apply Z.mod_small. lia. Qed.

Lemma to_size_t_range z : 0 ≤ to_size_t z < 2 ^ 64.
Proof. unfold to_size_t. apply Z.mod_pos_bound. lia. Qed.

(** ** The prime search of [Resize] *)

Lemma prime_scan_total steps : ∀ i n,
  2 ≤ i → 0 ≤ n < 2 ^ 32 →
  (Z.to_nat (n - 2 * i + 1) ≤ steps)%nat →
  ∃ r, prime_scan steps i n = Some r ∧ 0 ≤ r < 2 ^ 32.
Proof.
  induction steps as [|steps IH]; intros i n Hi Hn Hsteps; simpl.
  - destruct (Z.leb_spec i (n / 2)) as [Hle|Hgt]; [|by eauto].
    assert (2 * i ≤ n) by (pose proof (Z.mul_div_le n 2); lia). lia.
  - destruct (Z.leb_spec i (n / 2)) as [Hle|Hgt]; [|by eauto].
    assert (2 * i ≤ n) by (pose proof (Z.mul_div_le n 2); lia).
    destruct (n mod i =? 0).
    + pose proof (wrap_uint_range (n + 1)).
      assert (wrap_uint (n + 1) ≤ n + 1).
      { unfold wrap_uint. apply Z.mod_le; lia. }
      apply IH; lia.
    + apply IH; lia.
Qed.

Lemma prime_scan_bounds steps : ∀ i n,
  2 ≤ i → 0 ≤ n → n + Z.max 0 (n - 2 * i + 1) < 2 ^ 32 →
  (Z.to_nat (n - 2 * i + 1) ≤ steps)%nat →
  ∃ r, prime_scan steps i n = Some r ∧ n ≤ r ≤ n + Z.max 0 (n - 2 * i + 1).
Proof.
  induction steps as [|steps IH]; intros i n Hi Hn Hmax Hsteps; simpl.
  - destruct (Z.leb_spec i (n / 2)) as [Hle|Hgt]; [|exists n; split; [done|lia]].
    assert (2 * i ≤ n) by (pose proof (Z.mul_div_le n 2); lia). lia.
  - destruct (Z.leb_spec i (n / 2)) as [Hle|Hgt]; [|exists n; split; [done|lia]].
    assert (2 * i ≤ n) by (pose proof (Z.mul_div_le n 2); lia).
    destruct (n mod i =? 0).
    + rewrite wrap_uint_small by lia.
      destruct (IH (i + 1) (n + 1)) as (r & -> & Hr); [lia..|].
      exists r. split; [done|lia].
    + destruct (IH (i + 1) n) as (r & -> & Hr); [lia..|].
      exists r. split; [done|lia].
Qed.

(** [Resize] always finds a size: the scan ends within the steps given. *)
Lemma new_size_total c : ∃ r, new_size c = Some r ∧ 0 ≤ r < 2 ^ 32.
Proof.
  unfold new_size. pose proof (wrap_uint_range (c * 2)).
  apply prime_scan_total; lia.
Qed.

(** Without overflow the size found is between twice and four times the
    old one. *)
Lemma new_size_bounds c :
  1 ≤ c < 2 ^ 30 →
  ∃ r, new_size c = Some r ∧ 2 * c ≤ r ≤ 4 * c.
Proof.
  intros Hc. unfold new_size. rewrite wrap_uint_small by lia.
  destruct (prime_scan_bounds (Z.to_nat (c * 2)) 2 (c * 2)) as (r & -> & Hr);
    [lia..|].
  exists r. split; [done|lia].
Qed.

(** ** Chains *)

Lemma chain_courses_append n m :
  chain_courses (append_node n m) = chain_courses n ++ chain_courses m.
Proof.
  induction n as [c k|c k n IH] using Node_ind; simpl.
  - by destruct m.
  - by rewrite IH.
Qed.

Lemma chain_keys_append n m :
  key <$> chain_nodes (append_node n m)
  = (key <$> chain_nodes n) ++ (key <$> chain_nodes m).
Proof.
  induction n as [c k|c k n IH] using Node_ind; simpl.
  - by destruct m.
  - f_equal. exact IH.
Qed.

Lemma key_append_node n m : key (append_node n m) = key n.
Proof. by destruct n as [c k [n'|]]. Qed.

Lemma chain_courses_nodes n : chain_courses n = course <$> chain_nodes n.
Proof. induction n as [c k|c k n IH] using Node_ind; simpl; by f_equal. Qed.

Lemma push_chain_eq n : ∀ v, push_chain n v = v ++ chain_courses n.
Proof.
  induction n as [c k|c k n IH] using Node_ind; intros v; simpl; [done|].
  rewrite IH. by rewrite <- app_assoc.
Qed.

Lemma Sort_collect_eq t v : Sort_collect t v = v ++ stored t.
Proof.
  unfold Sort_collect, stored, buckets. revert v.
  induction (nodes t) as [|n ns IH]; intros v; simpl.
  - by rewrite app_nil_r.
  - rewrite IH. unfold bucket_courses at 2.
    destruct (key n =? UINT_MAX); simpl; [done|].
    by rewrite push_chain_eq, <- app_assoc.
Qed.

Lemma Search_next_eq id n :
  Search_next id n
  = default Course_default (first_with_id id (tail (chain_courses n))).
Proof.
  unfold first_with_id.
  induction n as [c k|c k n IH] using Node_ind; simpl; [done|].
  destruct n as [c' k' p]. simpl in *. unfold has_id at 1.
  destruct (String.eqb (courseId c') id); [done|]. exact IH.
Qed.

Lemma insert_each_app ins l1 l2 t :
  insert_each ins (l1 ++ l2) t
  = (t' <- insert_each ins l1 t ;; insert_each ins l2 t').
Proof.
  revert t. induction l1 as [|c l1 IH]; intros t; simpl; [done|].
  destruct (ins c t); simpl; [apply IH|done].
Qed.

Lemma reinsert_chain_eq ins n :
  ∀ t, reinsert_chain ins n t = insert_each ins (chain_courses n) t.
Proof.
  induction n as [c k|c k n IH] using Node_ind; intros t; simpl.
  - by destruct (ins c t).
  - destruct (ins c t); simpl; [apply IH|done].
Qed.

Lemma reinsert_eq ins temp :
  ∀ t, reinsert ins temp t
       = insert_each ins (concat (bucket_courses <$> temp)) t.
Proof.
  induction temp as [|n temp IH]; intros t; simpl; [done|].
  rewrite insert_each_app. unfold bucket_courses at 1.
  destruct (key n =? UINT_MAX); simpl; [apply IH|].
  rewrite reinsert_chain_eq.
  destruct (insert_each ins (chain_courses n) t); simpl; [apply IH|done].
Qed.

Lemma loadCourses_eq depth l t :
  loadCourses depth l t = insert_each (Insert depth) l t.
Proof. revert t. induction l as [|c l IH]; intros t; simpl; [done|].
  destruct (Insert depth c t); simpl; [apply IH|done]. Qed.

(** ** Lists of buckets *)

Section bucket_lists.
Context {A : Type}.
Implicit Types (bs : list (list A)) (b : list A).

Lemma concat_split bs i b :
  bs !! i = Some b →
  concat bs = concat (take i bs) ++ b ++ concat (drop (S i) bs).
Proof.
  intros Hi. rewrite <- (take_drop_middle bs i b Hi) at 1.
  by rewrite concat_app.
Qed.

Lemma concat_insert_split bs i b b' :
  bs !! i = Some b →
  concat (<[i:=b']> bs) = concat (take i bs) ++ b' ++ concat (drop (S i) bs).
Proof.
  intros Hi. rewrite insert_take_drop by (by eapply lookup_lt_Some).
  by rewrite concat_app.
Qed.

Lemma concat_insert_snoc_perm bs i b x :
  bs !! i = Some b →
  concat (<[i:=b ++ [x]]> bs) ≡ₚ concat bs ++ [x].
Proof.
  intros Hi. rewrite (concat_insert_split bs i b) by done.
  rewrite (concat_split bs i b) by done.
  rewrite <- !app_assoc. do 2 f_equiv. apply Permutation_app_comm.
Qed.

Lemma filter_concat_insert_snoc (f : A → bool) bs i b x :
  bs !! i = Some b →
  (f x = true → Forall (λ b', List.filter f b' = []) (drop (S i) bs)) →
  List.filter f (concat (<[i:=b ++ [x]]> bs))
  = List.filter f (concat bs) ++ List.filter f [x].
Proof.
  intros Hi Hlater. rewrite (concat_insert_split bs i b) by done.
  rewrite (concat_split bs i b) by done.
  rewrite !List.filter_app, <- !app_assoc. do 2 f_equal.
  simpl. destruct (f x) eqn:Hfx; [|by rewrite app_nil_r].
  assert (List.filter f (concat (drop (S i) bs)) = []) as ->; [|done].
  specialize (Hlater eq_refl). induction Hlater as [|b' bs' Hb' _ IH]; [done|].
  simpl. by rewrite List.filter_app, Hb', IH.
Qed.

Lemma filter_concat_nil (f : A → bool) bs :
  Forall (λ b', List.filter f b' = []) bs → List.filter f (concat bs) = [].
Proof.
  induction 1 as [|b' bs' Hb' _ IH]; [done|].
  simpl. by rewrite List.filter_app, Hb', IH.
Qed.

Lemma filter_concat_only (f : A → bool) bs i b :
  bs !! i = Some b →
  (∀ j b', j ≠ i → bs !! j = Some b' → List.filter f b' = []) →
  List.filter f (concat bs) = List.filter f b.
Proof.
  intros Hi Hothers. rewrite (concat_split bs i b) by done.
  rewrite !List.filter_app.
  rewrite !filter_concat_nil, ?app_nil_r; [done|..].
  - apply Forall_lookup_2. intros j b'. rewrite lookup_drop.
    apply Hothers. lia.
  - apply Forall_lookup_2. intros j b' [Hj Hlt]%lookup_take_Some.
    eapply Hothers; [|done]. lia.
Qed.

Lemma length_concat_insert_snoc bs i b x :
  bs !! i = Some b →
  length (concat (<[i:=b ++ [x]]> bs)) = S (length (concat bs)).
Proof.
  intros Hi. rewrite (concat_insert_snoc_perm bs i b x Hi).
  rewrite length_app. simpl. lia.
Qed.
End bucket_lists.

(** ** The hash index *)

Lemma hash_index_range size id :
  0 < size < 2 ^ 32 → 0 ≤ hash_index size id < size.
Proof.
  intros Hsize. unfold hash_index.
  pose proof (Z.mod_pos_bound (to_size_t (hash_loop id 0)) size).
  rewrite wrap_uint_small; lia.
Qed.

Lemma hash_eq t id :
  nodes t ≠ [] →
  hash t id = ok (hash_index (Z.of_nat (length (nodes t))) id).
Proof.
  intros Hne. unfold hash.
  destruct (Z.eqb_spec (Z.of_nat (length (nodes t))) 0) as [Hz|]; [|done].
  destruct (nodes t); [done|simpl in Hz; lia].
Qed.

Lemma hash_table_ok t id :
  table_ok t →
  hash t id = ok (hash_index (tableSize t) id)
  ∧ 0 ≤ hash_index (tableSize t) id < tableSize t.
Proof.
  intros [Hsize Hcap _ _]. split.
  - rewrite hash_eq, Hsize; [done|].
    intros Hnil. rewrite Hnil in Hsize. simpl in Hsize. lia.
  - apply hash_index_range. lia.
Qed.

Lemma node_at_lookup v i n :
  0 ≤ i < 2 ^ 64 →
  v !! Z.to_nat i = Some n → node_at v i = ok n.
Proof.
  intros Hi Hn. unfold node_at. rewrite to_size_t_small by done.
  apply lookup_lt_Some in Hn as Hlt.
  destruct (Z.ltb_spec i (Z.of_nat (length v))); [|lia].
  by rewrite Hn.
Qed.

(** In a well-formed table the bucket of an id exists, and [hash] and
    [nodes[key]] find it. *)
Lemma bucket_lookup t id :
  table_ok t →
  let h := hash_index (tableSize t) id in
  ∃ n, hash t id = ok h
    ∧ 0 ≤ h < tableSize t
    ∧ wrap_int h = h
    ∧ to_size_t h = h
    ∧ nodes t !! Z.to_nat h = Some n
    ∧ node_at (nodes t) h = ok n
    ∧ chain_at t h = bucket_courses n
    ∧ buckets t !! Z.to_nat h = Some (chain_at t h).
Proof.
  intros Hok h. destruct (hash_table_ok t id Hok) as [Hhash Hh]. fold h in Hhash, Hh.
  destruct Hok as [Hsize Hcap _ _].
  assert (Z.to_nat h < length (nodes t))%nat as Hlt by lia.
  destruct (lookup_lt_is_Some_2 _ _ Hlt) as [n Hn].
  exists n. do 2 (split; [done|]).
  split; [apply wrap_int_small; lia|].
  split; [apply to_size_t_small; lia|].
  split; [done|].
  split; [apply node_at_lookup; [lia|done]|].
  unfold chain_at, buckets. by rewrite list_lookup_fmap, Hn.
Qed.

(** ** Placing a course in its bucket *)

Lemma Node_of_key c h : 0 ≤ h < 2 ^ 31 → key (Node_of c h) ≠ UINT_MAX.
Proof.
  intros Hh. simpl. rewrite wrap_uint_small by lia. unfold UINT_MAX. lia.
Qed.

Lemma placed_courses n c h :
  0 ≤ h < 2 ^ 31 →
  bucket_courses (if key n =? UINT_MAX then Node_of c h
                  else append_node n (Node_of c h))
  = bucket_courses n ++ [c].
Proof.
  intros Hh. pose proof (Node_of_key c h Hh) as Hkey.
  unfold bucket_courses at 2.
  destruct (Z.eqb_spec (key n) UINT_MAX) as [Hn|Hn]; unfold bucket_courses.
  - by destruct (Z.eqb_spec (key (Node_of c h)) UINT_MAX).
  - rewrite key_append_node.
    destruct (Z.eqb_spec (key n) UINT_MAX); [done|].
    by rewrite chain_courses_append.
Qed.

Lemma placed_ok size i n c h :
  0 ≤ h < 2 ^ 31 →
  hash_index size (courseId c) = Z.of_nat i →
  bucket_ok size i n →
  bucket_ok size i (if key n =? UINT_MAX then Node_of c h
                    else append_node n (Node_of c h)).
Proof.
  intros Hh Hc. pose proof (Node_of_key c h Hh) as Hkey.
  unfold bucket_ok at 1.
  destruct (Z.eqb_spec (key n) UINT_MAX) as [Hn|Hn]; intros Hok; unfold bucket_ok.
  - destruct (Z.eqb_spec (key (Node_of c h)) UINT_MAX); [done|].
    split; repeat constructor; done.
  - rewrite key_append_node.
    destruct (Z.eqb_spec (key n) UINT_MAX); [done|].
    destruct Hok as [Hkeys Hhash].
    rewrite chain_keys_append, chain_courses_append. split.
    + apply Forall_app. split; [done|]. by repeat constructor.
    + apply Forall_app. split; [done|]. by repeat constructor.
Qed.

Lemma Insert_place_spec c t :
  table_ok t → numEntries t < 2 ^ 31 - 1 →
  let h := hash_index (tableSize t) (courseId c) in
  ∃ t1, Insert_place c t = ok t1
    ∧ tableSize t1 = tableSize t
    ∧ length (nodes t1) = length (nodes t)
    ∧ numEntries t1 = numEntries t + 1
    ∧ buckets t !! Z.to_nat h = Some (chain_at t h)
    ∧ buckets t1 = <[Z.to_nat h := chain_at t h ++ [c]]> (buckets t)
    ∧ (∀ i n, nodes t1 !! i = Some n → bucket_ok (tableSize t1) i n).
Proof.
  intros Hok Hcount h.
  destruct (bucket_lookup t (courseId c) Hok)
    as (n & Hhash & Hh & Hint & Hsz & Hn & Hat & Hb & Hchain).
  fold h in Hhash, Hh, Hint, Hsz, Hn, Hat, Hb, Hchain.
  destruct Hok as [Hsize Hcap Hbuckets Hnum].
  unfold Insert_place. rewrite Hhash, bind_ok, Hint, Hat, bind_ok, Hsz.
  eexists. split; [done|]. simpl.
  split_and!; try done.
  - by rewrite length_insert.
  - rewrite wrap_int_small by lia. done.
  - unfold buckets at 1. simpl. rewrite list_fmap_insert.
    rewrite placed_courses by lia. by rewrite Hb.
  - intros i m Hm. destruct (decide (i = Z.to_nat h)) as [->|Hne].
    + rewrite list_lookup_insert_eq in Hm by (by eapply lookup_lt_Some).
      injection Hm as <-.
      apply placed_ok; [lia|fold h; lia|by apply Hbuckets].
    + rewrite list_lookup_insert_ne in Hm by done. by apply Hbuckets.
Qed.

(** Courses with another hash index are not in the bucket. *)
Lemma bucket_other_id size i n id :
  bucket_ok size i n →
  hash_index size id ≠ Z.of_nat i →
  List.filter (has_id id) (bucket_courses n) = [].
Proof.
  unfold bucket_ok, bucket_courses. intros Hok Hne.
  destruct (key n =? UINT_MAX); [done|]. destruct Hok as [_ Hhash].
  induction Hhash as [|c cs Hc _ IH]; [done|]. simpl.
  unfold has_id at 1. destruct (String.eqb_spec (courseId c) id) as [<-|]; done.
Qed.

(** All courses with a given id are in the bucket of its hash index. *)
Lemma stored_with_id t id :
  table_ok t →
  all_with_id id (stored t)
  = all_with_id id (chain_at t (hash_index (tableSize t) id)).
Proof.
  intros Hok.
  destruct (bucket_lookup t id Hok) as (n & _ & Hh & _ & _ & _ & _ & _ & Hchain).
  destruct Hok as [Hsize Hcap Hbuckets _].
  set (h := hash_index (tableSize t) id) in *.
  unfold all_with_id, stored. apply (filter_concat_only _ _ _ _ Hchain).
  intros j b' Hj Hb'. unfold buckets in Hb'.
  rewrite list_lookup_fmap in Hb'.
  destruct (nodes t !! j) as [m|] eqn:Hm; [|done]. injection Hb' as <-.
  eapply bucket_other_id; [by apply Hbuckets|]. fold h. lia.
Qed.

Lemma Insert_place_holds l c t :
  holds l t → Z.of_nat (length l) < 2 ^ 31 - 1 →
  ∃ t1, Insert_place c t = ok t1
    ∧ holds (l ++ [c]) t1
    ∧ tableSize t1 = tableSize t
    ∧ numEntries t1 = numEntries t + 1
    ∧ chain_at t1 (hash_index (tableSize t) (courseId c))
      = chain_at t (hash_index (tableSize t) (courseId c)) ++ [c].
Proof.
  intros [Hok Hperm Horder] Hlen.
  assert (numEntries t = Z.of_nat (length l)) as Hnum.
  { rewrite (ok_count t Hok). by rewrite Hperm. }
  destruct (Insert_place_spec c t Hok) as (t1 & Hplace & Hsize & Hnodes & Hcount
    & Hchain & Hbs & Hbuckets); [lia|].
  destruct (hash_table_ok t (courseId c) Hok) as [_ Hh].
  set (h := hash_index (tableSize t) (courseId c)) in *.
  exists t1. split_and!; try done.
  - split.
    + split.
      * rewrite Hnodes, Hsize. apply Hok.
      * rewrite Hsize. apply Hok.
      * done.
      * unfold stored. rewrite Hbs, Hcount.
        rewrite (length_concat_insert_snoc _ _ _ _ Hchain).
        rewrite (ok_count t Hok). unfold stored. lia.
    + unfold stored. rewrite Hbs.
      rewrite (concat_insert_snoc_perm _ _ _ _ Hchain).
      fold (stored t). by rewrite Hperm.
    + intros id. unfold all_with_id, stored. rewrite Hbs.
      rewrite (filter_concat_insert_snoc _ _ _ _ _ Hchain).
      * fold (stored t). fold (all_with_id id (stored t)).
        rewrite Horder. unfold all_with_id. by rewrite List.filter_app.
      * intros Hid. apply Forall_lookup_2. intros j b'.
        rewrite lookup_drop. unfold buckets. rewrite list_lookup_fmap.
        destruct (nodes t !! (S (Z.to_nat h) + j)%nat) as [m|] eqn:Hm; [|done].
        intros [= <-]. eapply bucket_other_id; [by apply (ok_buckets t Hok)|].
        unfold has_id in Hid. apply String.eqb_eq in Hid. subst id. fold h. lia.
  - unfold chain_at at 1. rewrite Hbs.
    rewrite list_lookup_insert_eq; [done|].
    by eapply lookup_lt_Some.
Qed.

(** ** Empty tables *)

Lemma reset_nodes (v : list Node) :
  (λ _, Node_default) <$> v = replicate (length v) Node_default.
Proof. by apply const_fmap. Qed.

Lemma length_vector_resize n v : length (vector_resize n v) = n.
Proof.
  unfold vector_resize. rewrite length_app, length_take, length_replicate. lia.
Qed.

Lemma HashTable_new_nodes size :
  nodes (HashTable_new size) = replicate (Z.to_nat size) Node_default.
Proof. simpl. by rewrite reset_nodes, length_replicate. Qed.

Lemma buckets_empty n tsize count :
  buckets {| nodes := replicate n Node_default; tableSize := tsize;
             numEntries := count |}
  = replicate n [].
Proof. unfold buckets. simpl. by rewrite fmap_replicate. Qed.

Lemma concat_replicate_nil {A} n : concat (replicate n (@nil A)) = [].
Proof. induction n; simpl; done. Qed.

Lemma empty_holds size :
  0 < size ≤ 2 ^ 31 →
  holds [] {| nodes := replicate (Z.to_nat size) Node_default;
              tableSize := size; numEntries := 0 |}.
Proof.
  intros Hsize.
  assert (stored {| nodes := replicate (Z.to_nat size) Node_default;
                    tableSize := size; numEntries := 0 |} = []) as Hstored.
  { unfold stored. by rewrite buckets_empty, concat_replicate_nil. }
  split; [split|..]; simpl.
  - rewrite length_replicate. lia.
  - done.
  - intros i n [-> _]%lookup_replicate. reflexivity.
  - by rewrite Hstored.
  - by rewrite Hstored.
  - intros id. by rewrite Hstored.
Qed.

Lemma HashTable_new_holds size :
  0 < size ≤ 2 ^ 31 → holds [] (HashTable_new size).
Proof.
  intros Hsize. pose proof (empty_holds size Hsize) as H.
  unfold HashTable_new. by rewrite reset_nodes, length_replicate.
Qed.

(** ** Sequences of insertions *)

Lemma Insert_S depth c t :
  Insert (S depth) c t
  = (t1 <- Insert_place c t ;;
     if load_factor_reached (numEntries t1) (tableSize t1)
     then Resize (Insert depth) t1
     else ok t1).
Proof. reflexivity. Qed.

Lemma load_factor_reached_iff count size :
  0 < size → load_factor_reached count size = true ↔ size ≤ count.
Proof.
  intros Hsize. unfold load_factor_reached.
  destruct (Z.eqb_spec size 0); [lia|]. apply Z.leb_le.
Qed.

(** While the table is not full, [Insert] only places the course. *)
Lemma Insert_no_resize depth l c t :
  holds l t → Z.of_nat (length l) + 1 < tableSize t →
  ∃ t', Insert (S depth) c t = ok t' ∧ Insert_place c t = ok t'
    ∧ holds (l ++ [c]) t' ∧ tableSize t' = tableSize t.
Proof.
  intros Hholds Hlen.
  pose proof (ok_capacity t (holds_ok l t Hholds)) as Hcap.
  assert (numEntries t = Z.of_nat (length l)) as Hnum.
  { rewrite (ok_count t (holds_ok l t Hholds)). by rewrite (holds_perm l t). }
  destruct (Insert_place_holds l c t Hholds) as (t1 & Hplace & H1 & Hsize & Hcount & _);
    [lia|].
  exists t1. rewrite Insert_S, Hplace, bind_ok.
  destruct (load_factor_reached (numEntries t1) (tableSize t1)) eqn:Hload.
  - apply load_factor_reached_iff in Hload; lia.
  - done.
Qed.

Lemma insert_each_no_resize depth l : ∀ l0 t,
  holds l0 t → Z.of_nat (length l0 + length l) < tableSize t →
  ∃ t', insert_each (Insert (S depth)) l t = ok t'
    ∧ holds (l0 ++ l) t' ∧ tableSize t' = tableSize t.
Proof.
  induction l as [|c l IH]; intros l0 t Hholds Hlen.
  - exists t. by rewrite app_nil_r.
  - simpl in Hlen.
    destruct (Insert_no_resize depth l0 c t Hholds) as (t1 & Hins & _ & H1 & Hsize);
      [lia|].
    destruct (IH (l0 ++ [c]) t1 H1) as (t' & Hrest & H' & Hsize').
    { rewrite length_app, Hsize. simpl. lia. }
    exists t'. cbn [insert_each]. rewrite Hins, bind_ok.
    rewrite <- app_assoc in H'. split_and!; [done..|congruence].
Qed.

(** [Resize] on a table with fewer courses than twice its size moves
    every course to a table of the new size, with no nested [Resize]. *)
Lemma Resize_holds depth l t :
  holds l t → tableSize t ≤ 2 ^ 29 →
  Z.of_nat (length l) < 2 * tableSize t →
  ∃ t', Resize (Insert (S depth)) t = ok t'
    ∧ holds l t'
    ∧ new_size (tableSize t) = Some (tableSize t')
    ∧ 2 * tableSize t ≤ tableSize t' ≤ 4 * tableSize t.
Proof.
  intros Hholds Hsize Hlen.
  pose proof (ok_capacity t (holds_ok l t Hholds)) as Hcap.
  destruct (new_size_bounds (tableSize t)) as (r & Hr & Hbounds); [lia|].
  unfold Resize. rewrite Hr, reinsert_eq.
  rewrite reset_nodes, length_vector_resize. fold (buckets t). fold (stored t).
  destruct (insert_each_no_resize depth (stored t) []
    {| nodes := replicate (Z.to_nat r) Node_default; tableSize := r;
       numEntries := 0 |}) as (t' & Hins & H' & Hsize').
  { apply empty_holds. lia. }
  { simpl. rewrite (holds_perm l t Hholds). lia. }
  simpl in H', Hsize'. exists t'. split_and!; [done| |congruence|lia..].
  destruct H' as [Hok' Hperm' Horder']. split; [done|..].
  - by rewrite Hperm', (holds_perm l t Hholds).
  - intros id. by rewrite Horder', (holds_order l t Hholds).
Qed.

Lemma holds_numEntries l t : holds l t → numEntries t = Z.of_nat (length l).
Proof.
  intros H. rewrite (ok_count t (holds_ok l t H)). by rewrite (holds_perm l t).
Qed.

(** One call of [Insert] on a table that is not full. *)
Lemma Insert_step depth l c t :
  loaded l t → Z.of_nat (length l) < 2 ^ 29 →
  ∃ t1 t', Insert_place c t = ok t1
    ∧ Insert (S (S depth)) c t = ok t'
    ∧ holds (l ++ [c]) t1
    ∧ tableSize t1 = tableSize t
    ∧ numEntries t1 = numEntries t + 1
    ∧ loaded (l ++ [c]) t'
    ∧ (if load_factor_reached (numEntries t1) (tableSize t1)
       then Resize (Insert (S depth)) t1 = ok t'
            ∧ new_size (tableSize t) = Some (tableSize t')
            ∧ 2 * tableSize t ≤ tableSize t'
       else t' = t1).
Proof.
  intros [Hholds Hroom] Hlen.
  pose proof (ok_capacity t (holds_ok l t Hholds)) as Hcap.
  pose proof (holds_numEntries l t Hholds) as Hnum.
  destruct (Insert_place_holds l c t Hholds) as (t1 & Hplace & H1 & Hsize & Hcount & _);
    [lia|].
  exists t1. rewrite Insert_S, Hplace, bind_ok.
  assert (Z.of_nat (length (l ++ [c])) = Z.of_nat (length l) + 1) as Hlen1.
  { rewrite length_app. simpl. lia. }
  destruct (load_factor_reached (numEntries t1) (tableSize t1)) eqn:Hload.
  - apply load_factor_reached_iff in Hload; [|lia].
    destruct (Resize_holds depth (l ++ [c]) t1 H1) as (t' & Hres & H' & Hnew & Hb);
      [lia..|].
    exists t'. rewrite Hsize in Hnew, Hb.
    split_and!; try done; [|lia]. split; [done|lia].
  - exists t1. split_and!; try done. split; [done|].
    destruct (Z.le_gt_cases (tableSize t1) (numEntries t1)) as [Hle|Hgt].
    + apply load_factor_reached_iff in Hle; [congruence|lia].
    + lia.
Qed.

(** Any sequence of insertions into a table that is not full. *)
Lemma insert_each_loaded depth l : ∀ l0 t,
  loaded l0 t → Z.of_nat (length (l0 ++ l)) ≤ 2 ^ 29 →
  ∃ t', insert_each (Insert (S (S depth))) l t = ok t' ∧ loaded (l0 ++ l) t'.
Proof.
  induction l as [|c l IH]; intros l0 t Hloaded Hlen.
  - exists t. by rewrite app_nil_r.
  - rewrite length_app in Hlen. simpl in Hlen.
    destruct (Insert_step depth l0 c t Hloaded) as (t1 & t' & _ & Hins & _ & _ & _ & H' & _);
      [lia|].
    destruct (IH (l0 ++ [c]) t' H') as (t'' & Hrest & H'').
    { rewrite <- app_assoc, length_app. simpl. lia. }
    exists t''. cbn [insert_each]. rewrite Hins, bind_ok.
    by rewrite <- app_assoc in H''.
Qed.

Lemma HashTable_new_loaded size : 0 < size ≤ 2 ^ 31 → loaded [] (HashTable_new size).
Proof. intros Hsize. split; [by apply HashTable_new_holds|simpl; lia]. Qed.

(** Loading any sequence of courses into a new table. *)
Lemma loadCourses_loaded depth size l :
  0 < size ≤ 2 ^ 31 → Z.of_nat (length l) ≤ 2 ^ 29 →
  ∃ t, loadCourses (S (S depth)) l (HashTable_new size) = ok t ∧ loaded l t.
Proof.
  intros Hsize Hlen. rewrite loadCourses_eq.
  by apply (insert_each_loaded depth l [] _ (HashTable_new_loaded size Hsize)).
Qed.

(** ** [Search] *)

Lemma find_head_filter {A} (f : A → bool) l :
  List.find f l = head (List.filter f l).
Proof. induction l as [|x l IH]; simpl; [done|]. by destruct (f x). Qed.

Lemma chain_courses_head n : chain_courses n = course n :: tail (chain_courses n).
Proof. by destruct n. Qed.

Lemma Search_chain id t :
  table_ok t →
  Search id t
  = ok (default Course_default
          (first_with_id id (chain_at t (hash_index (tableSize t) id))), t).
Proof.
  intros Hok.
  destruct (bucket_lookup t id Hok) as (n & Hhash & _ & Hint & _ & _ & Hat & Hb & _).
  set (h := hash_index (tableSize t) id) in *.
  unfold Search. rewrite Hhash, bind_ok, Hint, Hat, bind_ok, Hb.
  unfold bucket_courses. destruct (key n =? UINT_MAX); [done|].
  rewrite chain_courses_head. unfold first_with_id. simpl.
  unfold has_id at 1. destruct (String.eqb (courseId (course n)) id); [done|].
  by rewrite Search_next_eq.
Qed.

(** [Search] returns the first course with the id among those inserted,
    and the empty course when there is none. *)
Lemma Search_holds l id t :
  holds l t →
  Search id t = ok (default Course_default (first_with_id id l), t).
Proof.
  intros [Hok _ Horder]. rewrite (Search_chain id t Hok). do 3 f_equal.
  unfold first_with_id. rewrite !find_head_filter.
  fold (all_with_id id l). rewrite <- Horder.
  by rewrite (stored_with_id t id Hok).
Qed.

Lemma first_with_id_elem id l c :
  c ∈ l → courseId c = id →
  ∃ first, first_with_id id l = Some first
    ∧ first ∈ l ∧ courseId first = id.
Proof.
  intros Hin Hid. unfold first_with_id.
  destruct (List.find (has_id id) l) as [first|] eqn:Hfind.
  - apply List.find_some in Hfind as [Hfirst Heq].
    exists first. split_and!; [done|by apply list_elem_of_In|].
    by apply String.eqb_eq.
  - apply list_elem_of_In in Hin.
    pose proof (List.find_none _ _ Hfind c Hin) as Hc.
    unfold has_id in Hc. apply String.eqb_neq in Hc. done.
Qed.

Lemma stored_in_chain t c :
  table_ok t → c ∈ stored t →
  c ∈ chain_at t (hash_index (tableSize t) (courseId c)).
Proof.
  intros Hok Hin. apply list_elem_of_In.
  apply (List.filter_In (has_id (courseId c))).
  fold (all_with_id (courseId c) (chain_at t (hash_index (tableSize t) (courseId c)))).
  rewrite <- (stored_with_id t _ Hok). apply List.filter_In.
  split; [by apply list_elem_of_In|]. apply String.eqb_refl.
Qed.

(** ** Occupied entries *)

Lemma occupied_chain size i n :
  bucket_ok size i n →
  length (List.filter occupied (chain_nodes n)) = length (bucket_courses n).
Proof.
  unfold bucket_ok, bucket_courses.
  destruct (Z.eqb_spec (key n) UINT_MAX) as [Hkey|Hkey].
  - destruct n as [c k p]. simpl. intros ->. unfold occupied. simpl in *.
    by destruct (Z.eqb_spec k UINT_MAX).
  - intros [Hkeys _]. rewrite chain_courses_nodes, length_fmap.
    f_equal. apply (Forall_fmap key (λ k, k ≠ UINT_MAX)) in Hkeys.
    induction Hkeys as [|m ms Hm _ IH]; [done|]. simpl in *.
    unfold occupied at 1. destruct (Z.eqb_spec (key m) UINT_MAX); [done|].
    simpl. by rewrite IH.
Qed.

Lemma occupied_entries_stored t :
  table_ok t → occupied_entries t = length (stored t).
Proof.
  intros [_ _ Hbuckets _]. unfold occupied_entries, stored, buckets.
  assert (Forall (λ n, ∃ i, bucket_ok (tableSize t) i n) (nodes t)) as Hall.
  { apply Forall_lookup_2. eauto. }
  clear Hbuckets. revert Hall. generalize (nodes t). intros ns Hall.
  induction Hall as [|n ns [i Hn] _ IH]; [done|].
  rewrite !fmap_cons. simpl. rewrite List.filter_app, !length_app.
  by rewrite (occupied_chain _ _ _ Hn), IH.
Qed.

Lemma occupied_entries_new size : occupied_entries (HashTable_new size) = 0%nat.
Proof.
  unfold occupied_entries. rewrite HashTable_new_nodes, fmap_replicate.
  induction (Z.to_nat size) as [|n IH]; [done|]. simpl. exact IH.
Qed.

(** ** The order of ids and [std::sort] *)

Lemma compare_as_OT s1 s2 : String.compare s1 s2 = String_as_OT.compare s1 s2.
Proof. reflexivity. Qed.

Lemma compare_lt_trans s1 s2 s3 :
  String.compare s1 s2 = Lt → String.compare s2 s3 = Lt →
  String.compare s1 s3 = Lt.
Proof.
  rewrite !compare_as_OT. intros H12 H23.
  exact (StrictOrder_Transitive (R:=String_as_OT.lt) s1 s2 s3 H12 H23).
Qed.

Lemma ltb_false_leb s1 s2 : String.ltb s2 s1 = false ↔ String.leb s1 s2 = true.
Proof.
  unfold String.ltb, String.leb. rewrite (String.compare_antisym s1 s2).
  destruct (String.compare s2 s1); simpl; split; congruence.
Qed.

Lemma key_le_id_le a b : key_le a b ↔ id_le a b.
Proof. apply ltb_false_leb. Qed.

#[local] Instance key_le_total : Total key_le.
Proof.
  intros a b. unfold key_le, less_than_key, String.ltb.
  rewrite (String.compare_antisym (courseId a) (courseId b)).
  destruct (String.compare (courseId b) (courseId a)); simpl; auto.
Qed.

#[local] Instance key_le_trans : Transitive key_le.
Proof.
  intros a b c. unfold key_le, less_than_key, String.ltb.
  destruct (String.compare (courseId c) (courseId a)) eqn:Hca; try done.
  intros Hba Hcb.
  destruct (String.compare (courseId b) (courseId a)) eqn:Hcmp; try done.
  - apply String.compare_eq_iff in Hcmp. rewrite Hcmp, Hca in Hcb. done.
  - rewrite String.compare_antisym in Hcmp.
    destruct (String.compare (courseId a) (courseId b)) eqn:Hab; try done.
    by rewrite (compare_lt_trans _ _ _ Hca Hab) in Hcb.
Qed.

(** [std::sort] can always deliver: some output meets its contract. *)
Lemma std_sort_exists (input : list Course) :
  ∃ output, std_sort less_than_key input output.
Proof.
  exists (merge_sort key_le input). split.
  - apply merge_sort_Permutation.
  - apply (StronglySorted_merge_sort key_le).
Qed.

Lemma AllSorted_iff t output :
  AllSorted t output ↔ std_sort less_than_key (stored t) output.
Proof. unfold AllSorted, Sort. by rewrite Sort_collect_eq. Qed.

Lemma std_sort_id_le input output :
  std_sort less_than_key input output → StronglySorted id_le output.
Proof.
  intros [_ Hsorted]. induction Hsorted as [|a l _ IH Hall]; constructor; [done|].
  eapply Forall_impl; [exact Hall|]. intros b Hb. by apply key_le_id_le.
Qed.

(** * Scenarios *)

(** The default table with three courses: each is found under its id, an
    unknown id gives the empty course, nothing was resized. *)
Example scenario_default_table :
  ∃ t, loadCourses 2 [CS101; CS102; MATH201] HashTable_default = ok t
    ∧ tableSize t = 179 ∧ numEntries t = 3
    ∧ Search "CS101" t = ok (CS101, t)
    ∧ Search "MATH201" t = ok (MATH201, t)
    ∧ Search "CS999" t = ok (Course_default, t).
Proof.
  eexists. split; [vm_compute; reflexivity|].
  split_and!; vm_compute; reflexivity.
Qed.

(** Three buckets and three courses: the third insertion resizes to
    seven buckets and every course is still found. *)
Example scenario_three_buckets :
  ∃ t, loadCourses 2 [CS101; CS102; MATH201] (HashTable_new 3) = ok t
    ∧ tableSize t = 7 ∧ numEntries t = 3
    ∧ Search "CS101" t = ok (CS101, t)
    ∧ Search "CS102" t = ok (CS102, t)
    ∧ Search "MATH201" t = ok (MATH201, t).
Proof.
  eexists. split; [vm_compute; reflexivity|].
  split_and!; vm_compute; reflexivity.
Qed.

(** Two courses with the id CS101: the first one inserted is found. *)
Example scenario_duplicate_id :
  ∃ t, loadCourses 2 [CS101; CS101_again] HashTable_default = ok t
    ∧ numEntries t = 2
    ∧ Search "CS101" t = ok (CS101, t)
    ∧ stored t = [CS101; CS101_again].
Proof.
  eexists. split; [vm_compute; reflexivity|].
  split_and!; vm_compute; reflexivity.
Qed.

(** * The claims of the design document *)

(** ** C1: the size chosen by [Resize] *)

Lemma not_prime_27 : ¬ prime 27.
Proof.
  intros [_ Hrel]. destruct (Hrel 3 ltac:(lia)) as [_ _ Hgcd].
  destruct (Hgcd 3) as [q Hq]; [by exists 1|by exists 9|]. lia.
Qed.

(** C1 does not hold of the code.  The claim: every resize triggered by
    [Insert] chooses the smallest prime above twice the old capacity, so
    the capacity is prime after a resize.  The code: in a table of 12
    buckets the twelfth [Insert] calls [Resize], whose scan goes on with
    the next divisor after each increment instead of starting again; it
    ends with 27 buckets, and 27 = 3 * 9 is not a prime (the smallest
    prime above 24 is 29). *)
Theorem Resize_from_12_is_not_prime :
  ∃ t t',
    loadCourses 2 (replicate 11 CS102) (HashTable_new 12) = ok t
    ∧ tableSize t = 12 ∧ numEntries t = 11
    ∧ Insert 2 CS101 t = ok t'
    ∧ new_size 12 = Some 27
    ∧ tableSize t' = 27 ∧ numEntries t' = 12
    ∧ 27 = 3 * 9 ∧ ¬ prime (tableSize t').
Proof.
  eexists. eexists. split; [vm_compute; reflexivity|].
  split; [reflexivity|]. split; [reflexivity|].
  split; [vm_compute; reflexivity|].
  split; [vm_compute; reflexivity|].
  split; [reflexivity|]. split; [reflexivity|]. split; [reflexivity|].
  exact not_prime_27.
Qed.

(** The same happens to the default table of [main] once it holds 2879
    courses: the sizes chosen from 179 on are 359, 719, 1439, 2879 and
    then 5763 = 3 * 1921. *)
Example new_size_from_default :
  new_size 179 = Some 359 ∧ new_size 359 = Some 719
  ∧ new_size 719 = Some 1439 ∧ new_size 1439 = Some 2879
  ∧ new_size 2879 = Some 5763 ∧ 5763 = 3 * 1921.
Proof. split_and!; vm_compute; reflexivity. Qed.

(** ** C2: the hash function *)

(** The value of [hash] is a bucket index. *)
Lemma hash_range t id :
  nodes t ≠ [] → Z.of_nat (length (nodes t)) < 2 ^ 32 →
  ∃ h, hash t id = ok h ∧ 0 ≤ h < Z.of_nat (length (nodes t)).
Proof.
  intros Hne Hlen. rewrite hash_eq by done. eexists. split; [done|].
  apply hash_index_range.
  assert (0 < Z.of_nat (length (nodes t))); [|lia].
  destruct (nodes t); [done|]. rewrite length_cons. lia.
Qed.

Lemma wrap_uint_wrap_int z : wrap_uint (wrap_int z) = wrap_uint z.
Proof.
  unfold wrap_uint, wrap_int.
  pose proof (Z.div_mod (z + 2 ^ 31) (2 ^ 32) ltac:(lia)) as Hdiv.
  replace ((z + 2 ^ 31) mod 2 ^ 32 - 2 ^ 31)
    with (z + - ((z + 2 ^ 31) / 2 ^ 32) * 2 ^ 32) by lia.
  apply Z_mod_plus_full.
Qed.

(** Modulo [2^32] the signed accumulator of the code and the unsigned
    accumulator of the reference algorithm agree on 7-bit ids. *)
Lemma wrap_uint_add_l a b : wrap_uint (wrap_uint a + b) = wrap_uint (a + b).
Proof. unfold wrap_uint. apply Zplus_mod_idemp_l. Qed.

Lemma wrap_uint_square a : wrap_uint (wrap_uint a * wrap_uint a) = wrap_uint (a * a).
Proof. unfold wrap_uint. symmetry. apply Zmult_mod. Qed.

Lemma hash_loop_reference id : ∀ k acc,
  ascii_only id = true → wrap_uint k = wrap_uint acc →
  wrap_uint (hash_loop id k) = wrap_uint (hash_reference_loop id acc).
Proof.
  induction id as [|ch id IH]; intros k acc Hascii Hk; simpl in *; [done|].
  apply andb_prop in Hascii as [Hch Hid]. apply IH; [done|].
  unfold char_code. rewrite Hch.
  rewrite wrap_uint_wrap_int.
  rewrite <- (wrap_uint_square (wrap_int _)), wrap_uint_wrap_int.
  rewrite <- (wrap_uint_add_l k), Hk, wrap_uint_add_l.
  unfold wrap_uint. by rewrite Zmod_mod.
Qed.

Lemma wrap_int_range z : - 2 ^ 31 ≤ wrap_int z < 2 ^ 31.
Proof.
  unfold wrap_int. pose proof (Z.mod_pos_bound (z + 2 ^ 31) (2 ^ 32)). lia.
Qed.

Lemma hash_loop_range id : ∀ k,
  - 2 ^ 31 ≤ k < 2 ^ 31 → - 2 ^ 31 ≤ hash_loop id k < 2 ^ 31.
Proof.
  induction id as [|ch id IH]; intros k Hk; simpl; [done|].
  apply IH. apply wrap_int_range.
Qed.

Lemma hash_reference_loop_range id : ∀ acc,
  0 ≤ acc < 2 ^ 32 → 0 ≤ hash_reference_loop id acc < 2 ^ 32.
Proof.
  induction id as [|ch id IH]; intros acc Hacc; simpl; [done|].
  apply IH. apply wrap_uint_range.
Qed.

(** X20.  The code and the reference algorithm differ by the sign only:
    for an id of 7-bit characters they return the same index whenever the
    accumulator of the code ends non-negative. *)
Lemma hash_reference_nonnegative t id :
  ascii_only id = true → 0 ≤ hash_loop id 0 →
  nodes t ≠ [] → Z.of_nat (length (nodes t)) < 2 ^ 32 →
  hash t id = ok (hash_reference id (Z.of_nat (length (nodes t)))).
Proof.
  intros Hascii Hsign Hne Hlen. rewrite hash_eq by done. f_equal.
  assert (0 < Z.of_nat (length (nodes t))) as Hpos.
  { destruct (nodes t); [done|]. rewrite length_cons. lia. }
  pose proof (hash_loop_reference id 0 0 Hascii eq_refl) as Heq.
  pose proof (hash_reference_loop_range id 0 ltac:(lia)) as Href.
  rewrite (wrap_uint_small (hash_reference_loop id 0)) in Heq by done.
  pose proof (hash_loop_range id 0 ltac:(lia)) as Hup.
  rewrite wrap_uint_small in Heq by lia.
  unfold hash_index, hash_reference. rewrite to_size_t_small, Heq by lia.
  apply wrap_uint_small.
  pose proof (Z.mod_pos_bound (hash_reference_loop id 0) (Z.of_nat (length (nodes t)))).
  lia.
Qed.

(** C2 does not hold of the code.  The claim: [hash] returns what the
    reference algorithm returns, whose accumulator is an unsigned
    fixed-width integer.  The code: the accumulator [key] is a (signed)
    [int]; for the id CS101 it ends negative, the conversion to [size_t]
    extends its sign, and in the default table of 179 buckets [hash]
    returns 15 where the reference algorithm returns 17. *)
Theorem hash_CS101_differs_from_reference :
  hash_loop "CS101" 0 = -912995516
  ∧ hash HashTable_default "CS101" = ok 15
  ∧ hash_reference "CS101" DEFAULT_SIZE = 17.
Proof. split_and!; vm_compute; reflexivity. Qed.

(** ** C3: [Search] after any sequence of insertions *)

(** C3.  After any sequence [l] of insertions into a new table, resizes
    included, [Search] with the id of an inserted course [R] returns the
    first course of [l] that has this id; it is [R] itself when no other
    course of [l] has the id. *)
Theorem Search_returns_first_inserted depth size l R :
  0 < size ≤ 2 ^ 31 → Z.of_nat (length l) ≤ 2 ^ 29 → R ∈ l →
  ∃ t first,
    loadCourses (S (S depth)) l (HashTable_new size) = ok t
    ∧ first_with_id (courseId R) l = Some first
    ∧ Search (courseId R) t = ok (first, t)
    ∧ courseId first = courseId R
    ∧ ((∀ c, c ∈ l → courseId c = courseId R → c = R) → first = R).
Proof.
  intros Hsize Hlen HR.
  destruct (loadCourses_loaded depth size l Hsize Hlen) as (t & Hload & Hholds & _).
  destruct (first_with_id_elem (courseId R) l R HR eq_refl)
    as (first & Hfirst & Hin & Hid).
  exists t, first. split_and!; try done.
  - by rewrite (Search_holds l _ t Hholds), Hfirst.
  - intros Hunique. by apply Hunique.
Qed.

Lemma Search_returns_first_inserted_witness :
  ∃ t first,
    loadCourses 2 [CS101; CS102; CS101_again; MATH201] (HashTable_new 1) = ok t
    ∧ first_with_id "CS101" [CS101; CS102; CS101_again; MATH201] = Some first
    ∧ Search "CS101" t = ok (first, t)
    ∧ courseId first = "CS101"%string
    ∧ ((∀ c, c ∈ [CS101; CS102; CS101_again; MATH201] →
             courseId c = "CS101"%string → c = CS101_again) →
       first = CS101_again).
Proof.
  apply (Search_returns_first_inserted 0 1
           [CS101; CS102; CS101_again; MATH201] CS101_again).
  - lia.
  - simpl. lia.
  - repeat constructor.
Defined.

(** ** C4: duplicate ids *)

(** C4 as stated fails for an insertion that resizes the table: the
    duplicate does not end at the tail of its chain.  In a table of three
    buckets that holds [B_first] and [C_other] in two buckets, the
    insertion of [B_second] fills the table; [Resize] moves the courses
    bucket by bucket into seven buckets, where the ids B and C share
    bucket 2, and [C_other] comes to stand behind [B_second]. *)
Lemma Insert_duplicate_not_at_tail_after_resize :
  ∃ t t',
    loadCourses 2 [B_first; C_other] (HashTable_new 3) = ok t
    ∧ chain_at t 0 = [B_first] ∧ chain_at t 1 = [C_other]
    ∧ Insert 2 B_second t = ok t'
    ∧ tableSize t' = 7
    ∧ hash t' "B" = ok 2
    ∧ chain_at t' 2 = [B_first; B_second; C_other]
    ∧ last (chain_at t' 2) ≠ Some B_second.
Proof.
  eexists. eexists. split; [vm_compute; reflexivity|].
  split; [reflexivity|]. split; [reflexivity|].
  split; [vm_compute; reflexivity|].
  split; [reflexivity|]. split; [reflexivity|]. split; [reflexivity|].
  discriminate.
Qed.

(** C4, amended.  When a course [c] is inserted whose id is that of a
    stored course [R], the table that [Insert] returns holds [c] in the
    chain that holds [R], behind every course of that chain with the same
    id; when the insertion does not resize, that is the chain [R] was in
    with [c] appended at its tail.  The count has grown by one, and
    [Search] for the id returns after the insertion what it returned
    before: the first course inserted with the id. *)
Theorem Insert_duplicate_id_shadows depth size l R c :
  0 < size ≤ 2 ^ 31 → Z.of_nat (length l) < 2 ^ 29 →
  R ∈ l → courseId c = courseId R →
  ∃ t t' h h' first,
    loadCourses (S (S depth)) l (HashTable_new size) = ok t
    ∧ Insert (S (S depth)) c t = ok t'
    ∧ hash t (courseId c) = ok h
    ∧ hash t' (courseId c) = ok h'
    ∧ R ∈ chain_at t h
    ∧ R ∈ chain_at t' h' ∧ c ∈ chain_at t' h'
    ∧ all_with_id (courseId c) (chain_at t' h')
      = all_with_id (courseId c) (chain_at t h) ++ [c]
    ∧ (load_factor_reached (numEntries t + 1) (tableSize t) = false →
         tableSize t' = tableSize t ∧ h' = h
         ∧ chain_at t' h = chain_at t h ++ [c])
    ∧ numEntries t' = numEntries t + 1
    ∧ first_with_id (courseId c) l = Some first
    ∧ Search (courseId c) t = ok (first, t)
    ∧ Search (courseId c) t' = ok (first, t').
Proof.
  intros Hsize Hlen HR Hid.
  destruct (loadCourses_loaded depth size l Hsize) as (t & Hload & Hloaded); [lia|].
  pose proof Hloaded as [Hholds _].
  destruct (Insert_step depth l c t Hloaded Hlen)
    as (t1 & t' & Hplace & Hins & H1 & Hsize1 & Hcount1 & [H' _] & Hif).
  destruct (Insert_place_holds l c t Hholds) as (t1' & Hplace' & _ & _ & _ & Hchain);
    [lia|].
  assert (t1' = t1) as ->.
  { rewrite Hplace in Hplace'. by injection Hplace'. }
  pose proof (holds_ok l t Hholds) as Hok.
  pose proof (holds_ok _ t' H') as Hok'.
  destruct (hash_table_ok t (courseId c) Hok) as [Hhash _].
  destruct (hash_table_ok t' (courseId c) Hok') as [Hhash' _].
  destruct (first_with_id_elem (courseId c) l R HR (eq_sym Hid))
    as (first & Hfirst & _ & _).
  assert (c ∈ stored t') as Hc'.
  { rewrite (holds_perm _ t' H'). apply elem_of_app. right. by left. }
  assert (R ∈ stored t') as HR'.
  { rewrite (holds_perm _ t' H'). apply elem_of_app. by left. }
  exists t, t', (hash_index (tableSize t) (courseId c)),
    (hash_index (tableSize t') (courseId c)), first.
  split_and!; try done.
  - rewrite Hid. apply (stored_in_chain t R Hok).
    by rewrite (holds_perm l t Hholds).
  - rewrite Hid. by apply (stored_in_chain t' R Hok').
  - by apply (stored_in_chain t' c Hok').
  - rewrite <- (stored_with_id t' _ Hok'), <- (stored_with_id t _ Hok).
    rewrite (holds_order _ _ H'), (holds_order _ _ Hholds).
    unfold all_with_id. rewrite List.filter_app. simpl.
    unfold has_id at 2. by rewrite String.eqb_refl.
  - intros Hroom. rewrite Hcount1, Hsize1, Hroom in Hif. subst t'.
    rewrite Hsize1. by split_and!.
  - rewrite (holds_numEntries _ _ H'), (holds_numEntries _ _ Hholds), length_app.
    simpl. lia.
  - by rewrite (Search_holds l _ t Hholds), Hfirst.
  - rewrite (Search_holds (l ++ [c]) _ t' H'). unfold first_with_id in *.
    rewrite find_head_filter in *. rewrite List.filter_app.
    destruct (List.filter (has_id (courseId c)) l); [done|].
    simpl in *. by injection Hfirst as ->.
Qed.

Lemma Insert_duplicate_id_shadows_witness :
  ∃ t t' h h' first,
    loadCourses 2 [B_first; C_other] (HashTable_new 3) = ok t
    ∧ Insert 2 B_second t = ok t'
    ∧ hash t "B" = ok h
    ∧ hash t' "B" = ok h'
    ∧ B_first ∈ chain_at t h
    ∧ B_first ∈ chain_at t' h' ∧ B_second ∈ chain_at t' h'
    ∧ all_with_id "B" (chain_at t' h')
      = all_with_id "B" (chain_at t h) ++ [B_second]
    ∧ (load_factor_reached (numEntries t + 1) (tableSize t) = false →
         tableSize t' = tableSize t ∧ h' = h
         ∧ chain_at t' h = chain_at t h ++ [B_second])
    ∧ numEntries t' = numEntries t + 1
    ∧ first_with_id "B" [B_first; C_other] = Some first
    ∧ Search "B" t = ok (first, t)
    ∧ Search "B" t' = ok (first, t').
Proof.
  apply (Insert_duplicate_id_shadows 0 3 [B_first; C_other] B_first B_second).
  - lia.
  - simpl. lia.
  - repeat constructor.
  - reflexivity.
Defined.

(** ** C5: the sorted enumeration *)

(** C5 as stated fails: courses with equal ids need not keep the order
    in which they were collected.  [Sort] calls [std::sort], which is not
    a stable sort.  With the seventeen CS101 courses in the default table
    the courses are collected in the order of their insertion, with the
    titles A to Q; [std::sort] of GNU libstdc++ partitions the seventeen
    elements once and leaves them with the titles in the order
    I Q P O N M L K J A H G F E D C B, which is an output of [AllSorted]
    and not the collection order. *)
Lemma AllSorted_unstable_for_equal_ids :
  ∃ t output,
    loadCourses 2 CS101_sections HashTable_default = ok t
    ∧ stored t = CS101_sections
    ∧ libstdcxx_sort less_than_key (Sort_collect t []) = Some output
    ∧ AllSorted t output
    ∧ courseTitle <$> output
      = ["I"; "Q"; "P"; "O"; "N"; "M"; "L"; "K"; "J"; "A"; "H"; "G"; "F";
         "E"; "D"; "C"; "B"]%string
    ∧ all_with_id "CS101" output ≠ all_with_id "CS101" (stored t).
Proof.
  eexists. eexists. split; [vm_compute; reflexivity|].
  match goal with |- stored ?T = _ ∧ _ =>
    assert (stored T = CS101_sections) as Hstored by (vm_compute; reflexivity)
  end.
  split; [exact Hstored|].
  split; [rewrite Sort_collect_eq, Hstored; vm_compute; reflexivity|].
  split.
  - apply AllSorted_iff. rewrite Hstored. split.
    + apply (bool_decide_unpack _). vm_compute. reflexivity.
    + apply (bool_decide_unpack _). vm_compute. reflexivity.
  - split; [vm_compute; reflexivity|].
    rewrite Hstored. vm_compute. discriminate.
Qed.

(** C5, amended.  After any sequence [l] of insertions into a new table,
    [AllSorted] has an output, and every output holds each stored course
    exactly once (it is a permutation of the stored courses, and of [l]),
    has as many elements as there were insertions, and is non-decreasing
    by id in the lexicographic order of strings.  The order among courses
    with equal ids is not determined. *)
Theorem AllSorted_sorted_permutation depth size l :
  0 < size ≤ 2 ^ 31 → Z.of_nat (length l) ≤ 2 ^ 29 →
  ∃ t,
    loadCourses (S (S depth)) l (HashTable_new size) = ok t
    ∧ (∃ output, AllSorted t output)
    ∧ ∀ output, AllSorted t output →
        output ≡ₚ stored t
        ∧ output ≡ₚ l
        ∧ length output = length l
        ∧ StronglySorted id_le output.
Proof.
  intros Hsize Hlen.
  destruct (loadCourses_loaded depth size l Hsize Hlen) as (t & Hload & Hholds & _).
  exists t. split_and!; [done|..].
  - destruct (std_sort_exists (stored t)) as [output Hout].
    exists output. by apply AllSorted_iff.
  - intros output Hout%AllSorted_iff.
    pose proof (holds_perm l t Hholds) as Hperm.
    destruct Hout as [Hp Hs]. split_and!.
    + done.
    + by rewrite Hp.
    + by rewrite Hp, Hperm.
    + by apply (std_sort_id_le (stored t)).
Qed.

Lemma AllSorted_sorted_permutation_witness :
  ∃ t,
    loadCourses 2 [MATH201; CS101; CS102; CS101_again] (HashTable_new 3) = ok t
    ∧ (∃ output, AllSorted t output)
    ∧ ∀ output, AllSorted t output →
        output ≡ₚ stored t
        ∧ output ≡ₚ [MATH201; CS101; CS102; CS101_again]
        ∧ length output = 4%nat
        ∧ StronglySorted id_le output.
Proof.
  apply (AllSorted_sorted_permutation 0 3 [MATH201; CS101; CS102; CS101_again]).
  - lia.
  - simpl. lia.
Defined.

(** ** C6: [Insert] succeeds, and resizes exactly when the table is full *)

(** C6.  In a table loaded with any sequence of courses, [Insert] of any
    course [c] succeeds and the table then holds [c] in addition.  With
    [t1] the table after the placement and the increment of the count:
    the test [count / capacity >= 1.0] holds exactly when the count has
    reached the capacity; when it holds, the result of [Insert] is the
    result of [Resize] on [t1], with more buckets; when it does not, the
    result is [t1] itself and the capacity is unchanged. *)
Theorem Insert_succeeds_resizes_when_full depth size l c :
  0 < size ≤ 2 ^ 31 → Z.of_nat (length l) < 2 ^ 29 →
  ∃ t t1 t',
    loadCourses (S (S depth)) l (HashTable_new size) = ok t
    ∧ Insert_place c t = ok t1
    ∧ numEntries t1 = numEntries t + 1
    ∧ tableSize t1 = tableSize t
    ∧ Insert (S (S depth)) c t = ok t'
    ∧ stored t' ≡ₚ l ++ [c]
    ∧ (load_factor_reached (numEntries t1) (tableSize t1) = true
       ↔ tableSize t ≤ numEntries t + 1)
    ∧ (if load_factor_reached (numEntries t1) (tableSize t1)
       then Resize (Insert (S depth)) t1 = ok t'
            ∧ tableSize t < tableSize t'
       else t' = t1 ∧ tableSize t' = tableSize t).
Proof.
  intros Hsize Hlen.
  destruct (loadCourses_loaded depth size l Hsize) as (t & Hload & Hloaded); [lia|].
  destruct (Insert_step depth l c t Hloaded Hlen)
    as (t1 & t' & Hplace & Hins & H1 & Hsize1 & Hcount1 & [H' _] & Hif).
  pose proof (ok_capacity t (holds_ok l t (proj1 Hloaded))) as Hcap.
  exists t, t1, t'. split_and!; try done.
  - apply (holds_perm _ _ H').
  - rewrite Hsize1, Hcount1. apply load_factor_reached_iff. lia.
  - destruct (load_factor_reached (numEntries t1) (tableSize t1)).
    + destruct Hif as (Hres & _ & Hgrow). split; [done|lia].
    + subst t'. done.
Qed.

Lemma Insert_succeeds_resizes_when_full_witness :
  ∃ t t1 t',
    loadCourses 2 [CS101; CS102] (HashTable_new 3) = ok t
    ∧ Insert_place MATH201 t = ok t1
    ∧ numEntries t1 = numEntries t + 1
    ∧ tableSize t1 = tableSize t
    ∧ Insert 2 MATH201 t = ok t'
    ∧ stored t' ≡ₚ [CS101; CS102] ++ [MATH201]
    ∧ (load_factor_reached (numEntries t1) (tableSize t1) = true
       ↔ tableSize t ≤ numEntries t + 1)
    ∧ (if load_factor_reached (numEntries t1) (tableSize t1)
       then Resize (Insert 1) t1 = ok t' ∧ tableSize t < tableSize t'
       else t' = t1 ∧ tableSize t' = tableSize t).
Proof.
  apply (Insert_succeeds_resizes_when_full 0 3 [CS101; CS102] MATH201).
  - lia.
  - simpl. lia.
Defined.

(** ** C7: [Search] does not write *)

(** C7.  For every table and every key, the table that [Search] leaves
    behind is the table it was called on: same capacity, same count, same
    bucket vector with the same chains. *)
Theorem Search_leaves_table_unchanged id t c t' :
  Search id t = ok (c, t') →
  t' = t
  ∧ tableSize t' = tableSize t
  ∧ numEntries t' = numEntries t
  ∧ nodes t' = nodes t
  ∧ buckets t' = buckets t.
Proof.
  unfold Search. intros Hsearch.
  assert (t' = t) as ->; [|done].
  destruct (hash t id) as [h|]; [|done]. cbn [bind] in Hsearch.
  destruct (node_at (nodes t) (wrap_int h)) as [current|]; [|done].
  cbn [bind] in Hsearch.
  destruct (key current =? UINT_MAX); [by injection Hsearch|].
  destruct (String.eqb (courseId (course current)) id); by injection Hsearch.
Qed.

Lemma Search_leaves_table_unchanged_witness :
  table_with_unnamed = table_with_unnamed
  ∧ tableSize table_with_unnamed = tableSize table_with_unnamed
  ∧ numEntries table_with_unnamed = numEntries table_with_unnamed
  ∧ nodes table_with_unnamed = nodes table_with_unnamed
  ∧ buckets table_with_unnamed = buckets table_with_unnamed.
Proof.
  apply (Search_leaves_table_unchanged "" table_with_unnamed
           unnamed table_with_unnamed).
  reflexivity.
Defined.

(** ** C8: the count *)

(** C8.  In a new table of any size, and after any sequence of
    insertions into a new table, resizes included, [numEntries] is the
    number of occupied entries that can be reached from the bucket
    vector; it is the number of insertions. *)
Theorem numEntries_counts_occupied depth size l :
  0 < size ≤ 2 ^ 31 → Z.of_nat (length l) ≤ 2 ^ 29 →
  (∀ size0, numEntries (HashTable_new size0)
            = Z.of_nat (occupied_entries (HashTable_new size0)))
  ∧ ∃ t,
      loadCourses (S (S depth)) l (HashTable_new size) = ok t
      ∧ numEntries t = Z.of_nat (occupied_entries t)
      ∧ numEntries t = Z.of_nat (length l).
Proof.
  intros Hsize Hlen. split.
  - intros size0. by rewrite occupied_entries_new.
  - destruct (loadCourses_loaded depth size l Hsize Hlen) as (t & Hload & Hholds & _).
    exists t. split_and!; [done| |by apply holds_numEntries].
    rewrite (occupied_entries_stored t (holds_ok l t Hholds)).
    apply (ok_count t (holds_ok l t Hholds)).
Qed.

Lemma numEntries_counts_occupied_witness :
  (∀ size0, numEntries (HashTable_new size0)
            = Z.of_nat (occupied_entries (HashTable_new size0)))
  ∧ ∃ t,
      loadCourses 2 [CS101; CS102; MATH201; CS101_again] (HashTable_new 2) = ok t
      ∧ numEntries t = Z.of_nat (occupied_entries t)
      ∧ numEntries t = 4.
Proof.
  apply (numEntries_counts_occupied 0 2 [CS101; CS102; MATH201; CS101_again]).
  - lia.
  - simpl. lia.
Defined.

(** ** C9: what [Search] returns *)

Lemma Search_next_result id n :
  courseId (Search_next id n) = id ∨ Search_next id n = Course_default.
Proof.
  induction n as [c k|c k n IH] using Node_ind; simpl; [by right|].
  destruct (String.eqb_spec (courseId (course n)) id); [by left|done].
Qed.

(** C9.  For every table and every key, the course that [Search] returns
    has the key as its id or is the empty course [Course()], whose id is
    the empty string.  A search with the empty string as key, whatever is
    stored under it, never passes the test for a found course that [main]
    applies to the result. *)
Theorem Search_result_id id t c t' :
  Search id t = ok (c, t') →
  (courseId c = id ∨ c = Course_default)
  ∧ (courseId c = id ∨ courseId c = ""%string)
  ∧ (id = ""%string → is_found c = false).
Proof.
  unfold Search. intros Hsearch.
  assert (courseId c = id ∨ c = Course_default) as Hc.
  { destruct (hash t id) as [h|]; [|done]. cbn [bind] in Hsearch.
    destruct (node_at (nodes t) (wrap_int h)) as [current|]; [|done].
    cbn [bind] in Hsearch.
    destruct (key current =? UINT_MAX); [injection Hsearch as <- _; by right|].
    destruct (String.eqb_spec (courseId (course current)) id).
    - injection Hsearch as <- _. by left.
    - injection Hsearch as <- _. apply Search_next_result. }
  split_and!; [done|..].
  - destruct Hc as [?| ->]; [by left|by right].
  - intros ->. unfold is_found. by destruct Hc as [->| ->].
Qed.

(** The table of three buckets after the insertion of [unnamed]. *)
Example loadCourses_unnamed :
  loadCourses 2 [unnamed] (HashTable_new 3) = ok table_with_unnamed.
Proof. reflexivity. Qed.

Lemma Search_result_id_witness :
  (courseId unnamed = ""%string ∨ unnamed = Course_default)
  ∧ (courseId unnamed = ""%string ∨ courseId unnamed = ""%string)
  ∧ (""%string = ""%string → is_found unnamed = false).
Proof.
  apply (Search_result_id "" table_with_unnamed unnamed table_with_unnamed).
  reflexivity.
Defined.

(** ** C10: a table of size zero *)

(** C10.  The constructor accepts the size 0 and makes a table with no
    bucket.  On that table [hash] divides by zero, and so do [Insert] and
    [Search], which start with [hash].  With at least one bucket [hash]
    returns a bucket index, and [Search] and [Insert] return. *)
Theorem zero_size_divides_by_zero :
  nodes (HashTable_new 0) = [] ∧ tableSize (HashTable_new 0) = 0
  ∧ (∀ id, hash (HashTable_new 0) id = raise DivisionByZero)
  ∧ (∀ depth c, Insert (S depth) c (HashTable_new 0) = raise DivisionByZero)
  ∧ (∀ id, Search id (HashTable_new 0) = raise DivisionByZero)
  ∧ (∀ size id, 1 ≤ size < 2 ^ 32 →
       ∃ h, hash (HashTable_new size) id = ok h ∧ 0 ≤ h < size)
  ∧ (∀ size id, 1 ≤ size ≤ 2 ^ 31 →
       ∃ c, Search id (HashTable_new size) = ok (c, HashTable_new size))
  ∧ (∀ depth size c, 1 ≤ size ≤ 2 ^ 31 →
       ∃ t, Insert (S (S depth)) c (HashTable_new size) = ok t).
Proof.
  split_and!; try done.
  - intros size id Hsize.
    destruct (hash_range (HashTable_new size) id) as (h & Hh & Hrange).
    + rewrite HashTable_new_nodes. destruct (Z.to_nat size) eqn:Hn; [lia|done].
    + rewrite HashTable_new_nodes, length_replicate. lia.
    + rewrite HashTable_new_nodes, length_replicate in Hrange.
      exists h. split; [done|lia].
  - intros size id Hsize. eexists.
    apply (Search_holds [] id (HashTable_new size)).
    apply HashTable_new_holds. lia.
  - intros depth size c Hsize.
    destruct (Insert_step depth [] c (HashTable_new size))
      as (_ & t & _ & Hins & _); [|simpl; lia|by exists t].
    apply HashTable_new_loaded. lia.
Qed.

Lemma zero_size_divides_by_zero_witness :
  (∃ h, hash (HashTable_new 179) "CS101" = ok h ∧ 0 ≤ h < 179)
  ∧ (∃ c, Search "CS101" (HashTable_new 179) = ok (c, HashTable_new 179))
  ∧ (∃ t, Insert 2 CS101 (HashTable_new 179) = ok t).
Proof.
  destruct zero_size_divides_by_zero
    as (_ & _ & _ & _ & _ & Hhash & Hsearch & Hinsert).
  split_and!.
  - apply (Hhash 179 "CS101"%string). lia.
  - apply (Hsearch 179 "CS101"%string). lia.
  - apply (Hinsert 0%nat 179 CS101). lia.
Defined.

(** * Further properties of the code *)

(** ** [Search] and [Insert] *)

Lemma first_with_id_none id l :
  (∀ c, c ∈ l → courseId c ≠ id) → first_with_id id l = None.
Proof.
  unfold first_with_id. induction l as [|c l IH]; intros Hnone; simpl; [done|].
  unfold has_id at 1. destruct (String.eqb_spec (courseId c) id) as [Heq|_].
  - exfalso. apply (Hnone c); [by left|done].
  - apply IH. intros c' Hc'. apply Hnone. by right.
Qed.

(** X1.  After any sequence of insertions into a new table, resizes
    included, [Search] with an id that no inserted course has returns the
    empty course, which does not pass the test for a found course. *)
Theorem Search_missing_id_not_found depth size l id :
  0 < size ≤ 2 ^ 31 → Z.of_nat (length l) ≤ 2 ^ 29 →
  (∀ c, c ∈ l → courseId c ≠ id) →
  ∃ t,
    loadCourses (S (S depth)) l (HashTable_new size) = ok t
    ∧ Search id t = ok (Course_default, t)
    ∧ is_found Course_default = false.
Proof.
  intros Hsize Hlen Hnone.
  destruct (loadCourses_loaded depth size l Hsize Hlen) as (t & Hload & Hholds & _).
  exists t. split_and!; [done| |done].
  by rewrite (Search_holds l id t Hholds), first_with_id_none.
Qed.

Lemma Search_missing_id_not_found_witness :
  ∃ t,
    loadCourses 2 [CS101; CS102; MATH201] (HashTable_new 3) = ok t
    ∧ Search "CS999" t = ok (Course_default, t)
    ∧ is_found Course_default = false.
Proof.
  apply (Search_missing_id_not_found 0 3 [CS101; CS102; MATH201] "CS999").
  - lia.
  - simpl. lia.
  - intros c Hc Hid.
    repeat (apply elem_of_cons in Hc as [->|Hc]; [discriminate Hid|]).
    by apply elem_of_nil in Hc.
Defined.

Lemma first_with_id_snoc_other id l c :
  courseId c ≠ id → first_with_id id (l ++ [c]) = first_with_id id l.
Proof.
  intros Hne. unfold first_with_id. rewrite !find_head_filter, List.filter_app.
  simpl. unfold has_id at 2.
  destruct (String.eqb_spec (courseId c) id); [done|]. by rewrite app_nil_r.
Qed.

(** X2.  An insertion does not change what [Search] returns for the
    other ids, whether or not the insertion resizes the table. *)
Theorem Insert_keeps_other_ids depth size l c id :
  0 < size ≤ 2 ^ 31 → Z.of_nat (length l) < 2 ^ 29 →
  courseId c ≠ id →
  ∃ t t' r,
    loadCourses (S (S depth)) l (HashTable_new size) = ok t
    ∧ Insert (S (S depth)) c t = ok t'
    ∧ Search id t = ok (r, t)
    ∧ Search id t' = ok (r, t').
Proof.
  intros Hsize Hlen Hne.
  destruct (loadCourses_loaded depth size l Hsize) as (t & Hload & Hloaded); [lia|].
  destruct (Insert_step depth l c t Hloaded Hlen)
    as (t1 & t' & _ & Hins & _ & _ & _ & [H' _] & _).
  exists t, t', (default Course_default (first_with_id id l)).
  split_and!; [done..| |].
  - apply (Search_holds l id t (proj1 Hloaded)).
  - rewrite (Search_holds (l ++ [c]) id t' H').
    by rewrite first_with_id_snoc_other.
Qed.

Lemma Insert_keeps_other_ids_witness :
  ∃ t t' r,
    loadCourses 2 [CS101; CS102] (HashTable_new 3) = ok t
    ∧ Insert 2 MATH201 t = ok t'
    ∧ Search "CS102" t = ok (r, t)
    ∧ Search "CS102" t' = ok (r, t').
Proof.
  apply (Insert_keeps_other_ids 0 3 [CS101; CS102] MATH201 "CS102").
  - lia.
  - simpl. lia.
  - discriminate.
Defined.

(** ** Invariants of the table *)

Lemma bucket_courses_hash size i n c :
  bucket_ok size i n → c ∈ bucket_courses n →
  hash_index size (courseId c) = Z.of_nat i.
Proof.
  unfold bucket_ok, bucket_courses.
  destruct (key n =? UINT_MAX); [by intros _ ?%elem_of_nil|].
  intros [_ Hhash] Hc. by apply (proj1 (Forall_forall _ _) Hhash).
Qed.

(** X3.  After any sequence of insertions into a new table the bucket
    vector has [tableSize] elements, every course of the bucket with
    index [i] has an id that [hash] maps to [i] under the current size,
    and every inserted course is in the bucket of its id. *)
Theorem courses_in_bucket_of_hash depth size l :
  0 < size ≤ 2 ^ 31 → Z.of_nat (length l) ≤ 2 ^ 29 →
  ∃ t,
    loadCourses (S (S depth)) l (HashTable_new size) = ok t
    ∧ Z.of_nat (length (nodes t)) = tableSize t
    ∧ (∀ i n c, nodes t !! i = Some n → c ∈ bucket_courses n →
         hash t (courseId c) = ok (Z.of_nat i))
    ∧ (∀ c, c ∈ l →
         ∃ h, hash t (courseId c) = ok h ∧ c ∈ chain_at t h).
Proof.
  intros Hsize Hlen.
  destruct (loadCourses_loaded depth size l Hsize Hlen) as (t & Hload & Hholds & _).
  pose proof (holds_ok l t Hholds) as Hok.
  exists t. split_and!; [done|apply Hok|..].
  - intros i n c Hn Hc.
    destruct (hash_table_ok t (courseId c) Hok) as [-> _]. f_equal.
    eapply bucket_courses_hash; [by apply (ok_buckets t Hok)|done].
  - intros c Hc. destruct (hash_table_ok t (courseId c) Hok) as [-> _].
    eexists. split; [done|]. apply (stored_in_chain t c Hok).
    by rewrite (holds_perm l t Hholds).
Qed.

Lemma courses_in_bucket_of_hash_witness :
  ∃ t,
    loadCourses 2 [CS101; CS102; MATH201; CS101_again] (HashTable_new 3) = ok t
    ∧ Z.of_nat (length (nodes t)) = tableSize t
    ∧ (∀ i n c, nodes t !! i = Some n → c ∈ bucket_courses n →
         hash t (courseId c) = ok (Z.of_nat i))
    ∧ (∀ c, c ∈ [CS101; CS102; MATH201; CS101_again] →
         ∃ h, hash t (courseId c) = ok h ∧ c ∈ chain_at t h).
Proof.
  apply (courses_in_bucket_of_hash 0 3 [CS101; CS102; MATH201; CS101_again]).
  - lia.
  - simpl. lia.
Defined.

(** The capacity along a sequence of insertions: it does not fall below
    [lo] and does not exceed four times the number of courses, unless it
    was larger from the start. *)
Lemma insert_each_capacity depth lo l : ∀ l0 t,
  loaded l0 t → Z.of_nat (length (l0 ++ l)) ≤ 2 ^ 29 →
  lo ≤ tableSize t ≤ Z.max lo (4 * Z.of_nat (length l0)) →
  ∃ t', insert_each (Insert (S (S depth))) l t = ok t'
    ∧ loaded (l0 ++ l) t'
    ∧ lo ≤ tableSize t' ≤ Z.max lo (4 * Z.of_nat (length (l0 ++ l))).
Proof.
  induction l as [|c l IH]; intros l0 t Hloaded Hlen Hcap.
  - exists t. by rewrite app_nil_r.
  - rewrite length_app in Hlen. simpl in Hlen.
    destruct (Insert_step depth l0 c t Hloaded)
      as (t1 & t' & _ & Hins & _ & Hsize1 & Hcount1 & H' & Hif); [lia|].
    pose proof (holds_numEntries l0 t (proj1 Hloaded)) as Hnum.
    pose proof (ok_capacity t (holds_ok l0 t (proj1 Hloaded))) as Hpos.
    destruct Hloaded as [_ Hroom].
    assert (lo ≤ tableSize t'
            ≤ Z.max lo (4 * Z.of_nat (length (l0 ++ [c])))) as Hcap'.
    { rewrite length_app. simpl.
      destruct (load_factor_reached (numEntries t1) (tableSize t1)) eqn:Hload.
      - apply load_factor_reached_iff in Hload; [|lia].
        destruct Hif as (_ & Hnew & Hgrow).
        destruct (new_size_bounds (tableSize t)) as (r & Hr & Hbounds); [lia|].
        rewrite Hnew in Hr. injection Hr as <-. lia.
      - subst t'. lia. }
    destruct (IH (l0 ++ [c]) t' H') as (t'' & Hrest & H'' & Hcap'').
    { rewrite <- app_assoc, length_app. simpl. lia. }
    { done. }
    exists t''. cbn [insert_each]. rewrite Hins, bind_ok.
    by rewrite <- app_assoc in H'', Hcap''.
Qed.

(** X4.  After any sequence of insertions into a new table the count is
    below the capacity, so that the load factor test fails, and the
    capacity is at least the initial size and at most four times the
    number of courses unless the initial size is larger.  The table never
    shrinks and its growth is linear in the number of courses. *)
Theorem capacity_after_loading depth size l :
  0 < size ≤ 2 ^ 31 → Z.of_nat (length l) ≤ 2 ^ 29 →
  ∃ t,
    loadCourses (S (S depth)) l (HashTable_new size) = ok t
    ∧ numEntries t = Z.of_nat (length l)
    ∧ numEntries t < tableSize t
    ∧ load_factor_reached (numEntries t) (tableSize t) = false
    ∧ size ≤ tableSize t ≤ Z.max size (4 * Z.of_nat (length l)).
Proof.
  intros Hsize Hlen. rewrite loadCourses_eq.
  destruct (insert_each_capacity depth size l [] (HashTable_new size))
    as (t & Hload & [Hholds Hroom] & Hcap).
  { by apply HashTable_new_loaded. }
  { done. }
  { simpl. lia. }
  simpl in Hholds, Hroom, Hcap.
  pose proof (holds_numEntries l t Hholds) as Hnum.
  exists t. split_and!; try done; try lia.
  destruct (load_factor_reached (numEntries t) (tableSize t)) eqn:Hfull; [|done].
  apply load_factor_reached_iff in Hfull; lia.
Qed.

Lemma capacity_after_loading_witness :
  ∃ t,
    loadCourses 2 [CS101; CS102; MATH201; CS101_again] (HashTable_new 2) = ok t
    ∧ numEntries t = 4
    ∧ numEntries t < tableSize t
    ∧ load_factor_reached (numEntries t) (tableSize t) = false
    ∧ 2 ≤ tableSize t ≤ Z.max 2 (4 * 4).
Proof.
  apply (capacity_after_loading 0 2 [CS101; CS102; MATH201; CS101_again]).
  - lia.
  - simpl. lia.
Defined.

(** ** A call of [Resize] from outside *)



(** ** The size that [Resize] chooses *)

Lemma prime_scan_odd steps : ∀ i n r,
  2 ≤ i → 0 ≤ n → n + Z.max 0 (n - 2 * i + 1) < 2 ^ 32 →
  n mod 2 = 1 ∨ 2 * i ≤ n →
  prime_scan steps i n = Some r → r mod 2 = 1.
Proof.
  induction steps as [|steps IH]; intros i n r Hi Hn Hmax Hinv; simpl.
  - destruct (Z.leb_spec i (n / 2)) as [Hle|Hgt]; [done|].
    intros [= <-]. destruct Hinv as [|Hloop]; [done|].
    exfalso. revert Hgt. Z.div_mod_to_equations. lia.
  - destruct (Z.leb_spec i (n / 2)) as [Hle|Hgt].
    + assert (2 * i ≤ n) as Hloop by (revert Hle; Z.div_mod_to_equations; lia).
      destruct (Z.eqb_spec (n mod i) 0) as [Hdiv|Hdiv].
      * rewrite wrap_uint_small by lia. apply IH; [lia..|].
        destruct (Z.eq_dec (n mod 2) 1) as [Hodd|Heven].
        -- right. revert Hodd. Z.div_mod_to_equations. lia.
        -- left. revert Heven. Z.div_mod_to_equations. lia.
      * apply IH; [lia..|].
        destruct (Z.eq_dec (n mod 2) 1) as [Hodd|Heven]; [by left|right].
        destruct (Z.eq_dec n (2 * i)) as [->|Hne].
        -- exfalso. apply Hdiv. apply Z_mod_mult.
        -- revert Heven. Z.div_mod_to_equations. lia.
    + intros [= <-]. destruct Hinv as [|Hloop]; [done|].
      exfalso. revert Hgt. Z.div_mod_to_equations. lia.
Qed.

(** X6.  The scan of [Resize] ends for every table size and yields a
    32-bit size.  For a table of 2 to [2^30 - 1] buckets the size chosen
    is odd, more than twice the old size and at most four times the old
    size. *)
Theorem new_size_odd_and_bounded tableSize :
  2 ≤ tableSize < 2 ^ 30 →
  (∀ size, ∃ r, new_size size = Some r ∧ 0 ≤ r < 2 ^ 32)
  ∧ ∃ newSize,
      new_size tableSize = Some newSize
      ∧ newSize mod 2 = 1
      ∧ 2 * tableSize < newSize ≤ 4 * tableSize.
Proof.
  intros Hsize. split; [apply new_size_total|].
  destruct (new_size_bounds tableSize) as (r & Hr & Hbounds); [lia|].
  assert (r mod 2 = 1) as Hodd.
  { unfold new_size in Hr. rewrite wrap_uint_small in Hr by lia.
    eapply prime_scan_odd; [| | | |exact Hr]; lia. }
  exists r. split_and!; [done..| |lia].
  destruct (Z.eq_dec r (2 * tableSize)) as [->|]; [|lia].
  rewrite Z.mul_comm, Z_mod_mult in Hodd. done.
Qed.

Lemma new_size_odd_and_bounded_witness :
  (∀ size, ∃ r, new_size size = Some r ∧ 0 ≤ r < 2 ^ 32)
  ∧ ∃ newSize,
      new_size 12 = Some newSize
      ∧ newSize mod 2 = 1
      ∧ 2 * 12 < newSize ≤ 4 * 12.
Proof. apply (new_size_odd_and_bounded 12). lia. Defined.

(** X7.  A table with no bucket stays without buckets: [Resize] doubles
    zero to zero, finds nothing to insert again and returns an empty
    table of size zero, on which [Insert] divides by zero as before. *)
Theorem Resize_of_zero_size ins depth c :
  Resize ins (HashTable_new 0) = ok (HashTable_new 0)
  ∧ Insert (S depth) c (HashTable_new 0) = raise DivisionByZero.
Proof. split; reflexivity. Qed.

(** ** [Sort] *)

(** X8.  [Sort] does not clear the vector it is given: what it leaves
    there is a sorted permutation of the courses that were in the vector
    followed by the stored courses.  A second [Sort] on the vector of a
    first one therefore leaves every stored course in it twice. *)
Theorem Sort_keeps_vector t sortCourses output again :
  Sort t sortCourses output → Sort t output again →
  output ≡ₚ sortCourses ++ stored t
  ∧ length output = (length sortCourses + length (stored t))%nat
  ∧ StronglySorted id_le output
  ∧ again ≡ₚ sortCourses ++ stored t ++ stored t.
Proof.
  unfold Sort. rewrite !Sort_collect_eq. intros Hout Hagain.
  pose proof Hout as [Hperm _]. pose proof Hagain as [Hperm' _].
  split_and!.
  - done.
  - by rewrite Hperm, length_app.
  - by apply (std_sort_id_le _ _ Hout).
  - by rewrite Hperm', Hperm, <- app_assoc.
Qed.

Lemma Sort_keeps_vector_witness :
  [unnamed; CS101] ≡ₚ [CS101] ++ stored table_with_unnamed
  ∧ length [unnamed; CS101]
    = (length [CS101] + length (stored table_with_unnamed))%nat
  ∧ StronglySorted id_le [unnamed; CS101]
  ∧ [unnamed; unnamed; CS101]
    ≡ₚ [CS101] ++ stored table_with_unnamed ++ stored table_with_unnamed.
Proof.
  apply (Sort_keeps_vector table_with_unnamed [CS101]
           [unnamed; CS101] [unnamed; unnamed; CS101]).
  - split; [apply perm_swap|repeat constructor].
  - split; [|repeat constructor].
    change (Sort_collect table_with_unnamed [unnamed; CS101])
      with [unnamed; CS101; unnamed].
    apply perm_skip, perm_swap.
Defined.

(** X9.  On a new table, whatever its size, the sorted enumeration is
    the empty sequence and nothing else. *)
Theorem AllSorted_of_new_table size output :
  AllSorted (HashTable_new size) output ↔ output = [].
Proof.
  rewrite AllSorted_iff.
  assert (stored (HashTable_new size) = []) as ->.
  { unfold stored, buckets. rewrite HashTable_new_nodes, fmap_replicate.
    apply concat_replicate_nil. }
  split.
  - intros [Hperm _]. by apply Permutation_nil_r.
  - intros ->. split; [done|constructor].
Qed.

Lemma key_le_antisym_id a b : key_le a b → key_le b a → courseId a = courseId b.
Proof.
  intros Hab%key_le_id_le Hba%key_le_id_le. by apply String.leb_antisym.
Qed.

Lemma NoDup_fmap_eq {A B} (f : A → B) (l : list A) x y :
  NoDup (f <$> l) → x ∈ l → y ∈ l → f x = f y → x = y.
Proof.
  induction l as [|a l IH]; [by intros _ ?%elem_of_nil|].
  rewrite fmap_cons. intros [Ha Hl]%NoDup_cons Hx Hy Hf.
  apply elem_of_cons in Hx as [->|Hx]; apply elem_of_cons in Hy as [->|Hy].
  - done.
  - exfalso. apply Ha. rewrite Hf. by apply list_elem_of_fmap_2.
  - exfalso. apply Ha. rewrite <- Hf. by apply list_elem_of_fmap_2.
  - by apply IH.
Qed.

Lemma std_sort_unique input output1 output2 :
  NoDup (courseId <$> input) →
  std_sort less_than_key input output1 →
  std_sort less_than_key input output2 →
  output1 = output2.
Proof.
  intros Hids [Hperm1 Hsorted1] [Hperm2 Hsorted2].
  apply (StronglySorted_unique_strong key_le); try done.
  - intros x1 x2 Hx1 Hx2 H12 H21.
    apply (NoDup_fmap_eq courseId input); [done|by rewrite <- Hperm1|
      by rewrite <- Hperm2|by apply key_le_antisym_id].
  - by rewrite Hperm1, Hperm2.
Qed.

(** X10.  When no two stored courses have the same id, the sorted
    enumeration is determined: any two outputs of [AllSorted] on the
    table are the same sequence. *)
Theorem AllSorted_unique_for_distinct_ids t output1 output2 :
  NoDup (courseId <$> stored t) →
  AllSorted t output1 → AllSorted t output2 →
  output1 = output2.
Proof.
  intros Hids Hout1%AllSorted_iff Hout2%AllSorted_iff.
  by apply (std_sort_unique (stored t)).
Qed.

Example loadCourses_two_courses :
  loadCourses 2 [CS102; CS101] (HashTable_new 3) = ok table_two_courses.
Proof. reflexivity. Qed.

Lemma AllSorted_unique_for_distinct_ids_witness :
  [CS101; CS102] = [CS101; CS102].
Proof.
  apply (AllSorted_unique_for_distinct_ids table_two_courses).
  - change (courseId <$> stored table_two_courses)
      with ["CS102"%string; "CS101"%string].
    apply NoDup_cons. split.
    + intros Hin. apply list_elem_of_singleton in Hin. discriminate Hin.
    + apply NoDup_singleton.
  - apply AllSorted_iff. split; [apply perm_swap|repeat constructor].
  - apply AllSorted_iff. split; [apply perm_swap|repeat constructor].
Defined.

(** ** Loading more than once *)

(** X11.  The menu of [main] loads into the table it has: loading [l2]
    into a table that was loaded with [l1] gives the table that loading
    [l1 ++ l2] into a new table gives.  Nothing is replaced: the count is
    the sum of the two lengths, and an id that had a course after the
    first load keeps that course. *)
Theorem loadCourses_twice depth size l1 l2 :
  0 < size ≤ 2 ^ 31 → Z.of_nat (length (l1 ++ l2)) ≤ 2 ^ 29 →
  ∃ t1 t2,
    loadCourses (S (S depth)) l1 (HashTable_new size) = ok t1
    ∧ loadCourses (S (S depth)) l2 t1 = ok t2
    ∧ loadCourses (S (S depth)) (l1 ++ l2) (HashTable_new size) = ok t2
    ∧ numEntries t2 = Z.of_nat (length l1) + Z.of_nat (length l2)
    ∧ ∀ id r, first_with_id id l1 = Some r →
        Search id t1 = ok (r, t1) ∧ Search id t2 = ok (r, t2).
Proof.
  intros Hsize Hlen. rewrite !loadCourses_eq.
  destruct (insert_each_loaded depth l1 [] (HashTable_new size))
    as (t1 & Hload1 & Hloaded1).
  { by apply HashTable_new_loaded. }
  { rewrite length_app in Hlen. simpl. lia. }
  destruct (insert_each_loaded depth l2 ([] ++ l1) t1 Hloaded1)
    as (t2 & Hload2 & [Hholds2 _]); [exact Hlen|].
  simpl in Hloaded1, Hholds2.
  exists t1, t2. split_and!; [done|by rewrite loadCourses_eq|..].
  - by rewrite insert_each_app, Hload1, bind_ok.
  - rewrite (holds_numEntries _ _ Hholds2), length_app. lia.
  - intros id r Hfirst. split.
    + by rewrite (Search_holds l1 id t1 (proj1 Hloaded1)), Hfirst.
    + rewrite (Search_holds (l1 ++ l2) id t2 Hholds2).
      unfold first_with_id in *. rewrite find_head_filter in *.
      rewrite List.filter_app.
      destruct (List.filter (has_id id) l1); [done|].
      simpl in *. by injection Hfirst as ->.
Qed.

Lemma loadCourses_twice_witness :
  ∃ t1 t2,
    loadCourses 2 [CS101; CS102] (HashTable_new 3) = ok t1
    ∧ loadCourses 2 [CS101_again; CS102] t1 = ok t2
    ∧ loadCourses 2 ([CS101; CS102] ++ [CS101_again; CS102]) (HashTable_new 3)
      = ok t2
    ∧ numEntries t2 = Z.of_nat 2 + Z.of_nat 2
    ∧ ∀ id r, first_with_id id [CS101; CS102] = Some r →
        Search id t1 = ok (r, t1) ∧ Search id t2 = ok (r, t2).
Proof.
  apply (loadCourses_twice 0 3 [CS101; CS102] [CS101_again; CS102]).
  - lia.
  - simpl. lia.
Defined.

(** ** Tables of any content *)

(** X12.  On every table whose bucket vector has between 1 and [2^31]
    elements, whatever the nodes and the counters hold, [hash] returns an
    index inside the vector, [Search] returns a course and leaves the
    table as it was, and the placement step of [Insert] returns a table
    with the same number of buckets. *)
Theorem no_fault_with_buckets t id c :
  nodes t ≠ [] → Z.of_nat (length (nodes t)) ≤ 2 ^ 31 →
  (∃ h, hash t id = ok h ∧ 0 ≤ h < Z.of_nat (length (nodes t)))
  ∧ (∃ r, Search id t = ok (r, t))
  ∧ (∃ t1, Insert_place c t = ok t1
       ∧ length (nodes t1) = length (nodes t)
       ∧ tableSize t1 = tableSize t).
Proof.
  intros Hne Hlen.
  assert (∀ id', ∃ h n, hash t id' = ok h
            ∧ 0 ≤ h < Z.of_nat (length (nodes t))
            ∧ node_at (nodes t) (wrap_int h) = ok n) as Hbucket.
  { intros id'. destruct (hash_range t id') as (h & Hh & Hrange); [done|lia|].
    assert (Z.to_nat h < length (nodes t))%nat as Hlt by lia.
    destruct (lookup_lt_is_Some_2 _ _ Hlt) as [n Hn].
    exists h, n. split_and!; [done|lia..|].
    rewrite wrap_int_small by lia. apply node_at_lookup; [lia|done]. }
  split_and!.
  - destruct (Hbucket id) as (h & _ & Hh & Hrange & _). by exists h.
  - destruct (Hbucket id) as (h & n & Hh & _ & Hat).
    unfold Search. rewrite Hh, bind_ok, Hat, bind_ok.
    destruct (key n =? UINT_MAX); [by eexists|].
    destruct (String.eqb (courseId (course n)) id); by eexists.
  - destruct (Hbucket (courseId c)) as (h & n & Hh & _ & Hat).
    unfold Insert_place. rewrite Hh, bind_ok, Hat, bind_ok.
    eexists. split; [done|]. simpl. by rewrite length_insert.
Qed.

Lemma no_fault_with_buckets_witness :
  (∃ h, hash table_two_courses "CS999" = ok h
        ∧ 0 ≤ h < Z.of_nat (length (nodes table_two_courses)))
  ∧ (∃ r, Search "CS999" table_two_courses = ok (r, table_two_courses))
  ∧ (∃ t1, Insert_place MATH201 table_two_courses = ok t1
       ∧ length (nodes t1) = length (nodes table_two_courses)
       ∧ tableSize t1 = tableSize table_two_courses).
Proof.
  apply (no_fault_with_buckets table_two_courses "CS999" MATH201).
  - discriminate.
  - simpl. lia.
Defined.

(** ** [hash] and the reference algorithm *)

Lemma hash_reference_nonnegative_witness :
  hash HashTable_default "CS"
  = ok (hash_reference "CS" (Z.of_nat (length (nodes HashTable_default)))).
Proof.
  apply (hash_reference_nonnegative HashTable_default "CS").
  - reflexivity.
  - vm_compute. discriminate.
  - discriminate.
  - vm_compute. reflexivity.
Defined.

(** ** [Search] on any table *)

Lemma Search_leaves_table_unchanged_frame id t r t' :
  Search id t = inl (r, t') → t' = t.
Proof.
  unfold Search. intros Hsearch.
  destruct (hash t id) as [h|]; [|done]. cbn [bind] in Hsearch.
  destruct (node_at (nodes t) (wrap_int h)) as [current|]; [|done].
  cbn [bind] in Hsearch.
  destruct (key current =? UINT_MAX); [by injection Hsearch|].
  destruct (String.eqb (courseId (course current)) id); by injection Hsearch.
Qed.

Lemma Search_result_course id t r t' :
  Search id t = inl (r, t') → courseId r = id ∨ r = Course_default.
Proof.
  unfold Search. intros Hsearch.
  destruct (hash t id) as [h|]; [|done]. cbn [bind] in Hsearch.
  destruct (node_at (nodes t) (wrap_int h)) as [current|]; [|done].
  cbn [bind] in Hsearch.
  destruct (key current =? UINT_MAX); [injection Hsearch as <- _; by right|].
  destruct (String.eqb_spec (courseId (course current)) id).
  - injection Hsearch as <- _. by left.
  - injection Hsearch as <- _. apply Search_next_result.
Qed.

(** ** [displayCourse] *)

Lemma append_empty_r (s : string) : s +:+ "" = s.
Proof.
  induction s as [|ch s IH]; [done|].
  change (String ch (s +:+ "") = String ch s). by rewrite IH.
Qed.

Lemma print_prerequisites_concat rest : ∀ i,
  print_prerequisites i (i + length rest) rest = String.concat ", " rest.
Proof.
  induction rest as [|p rest IH]; intros i; [done|].
  cbn [print_prerequisites]. destruct rest as [|q rest].
  - simpl. rewrite Nat.eqb_refl. simpl. apply append_empty_r.
  - destruct (Nat.eqb_spec (i + 1) (i + length (p :: q :: rest))) as [Heq|_].
    { simpl in Heq. lia. }
    replace (i + length (p :: q :: rest))%nat
      with (S i + length (q :: rest))%nat by (simpl; lia).
    rewrite IH. reflexivity.
Qed.

(** X13.  [displayCourse] writes the id and the title on one line and on
    the next the prerequisites with a comma and a space between two of
    them: none before the first, none after the last, and nothing but the
    label when there is no prerequisite. *)
Theorem displayCourse_text aCourse :
  displayCourse aCourse
  = " " +:+ courseId aCourse +:+ ", " +:+ courseTitle aCourse +:+ endl
    +:+ " Prerequisites: "
    +:+ String.concat ", " (prerequisites aCourse) +:+ endl.
Proof.
  unfold displayCourse.
  change (length (prerequisites aCourse))
    with (0 + length (prerequisites aCourse))%nat.
  by rewrite print_prerequisites_concat.
Qed.

(** ** The course menu of [main] *)

Lemma islower_upper ch : islower (if islower ch then toupper ch else ch) = false.
Proof. destruct ch as [[] [] [] [] [] [] [] []]; reflexivity. Qed.

Lemma upper_ascii ch :
  (Z.of_N (N_of_ascii ch) <? 128) = true →
  (Z.of_N (N_of_ascii (if islower ch then toupper ch else ch)) <? 128) = true.
Proof. destruct ch as [[] [] [] [] [] [] [] []]; try reflexivity; discriminate. Qed.

Lemma has_lower_upper_case key : has_lower (upper_case key) = false.
Proof.
  induction key as [|ch key IH]; simpl; [done|].
  by rewrite islower_upper, IH.
Qed.

Lemma upper_case_no_lower key : has_lower key = false → upper_case key = key.
Proof.
  induction key as [|ch key IH]; simpl; [done|].
  intros [Hch Hkey]%orb_false_elim. rewrite Hch. by rewrite IH.
Qed.

(** X14.  The fold to upper case that [main] applies to a key of 7-bit
    characters keeps the length of the key and leaves no lower-case
    letter in it; a key without lower-case letters is left as it is, so
    that folding twice is folding once. *)
Theorem upper_case_folds key :
  ascii_only key = true →
  String.length (upper_case key) = String.length key
  ∧ has_lower (upper_case key) = false
  ∧ ascii_only (upper_case key) = true
  ∧ (has_lower key = false → upper_case key = key)
  ∧ upper_case (upper_case key) = upper_case key.
Proof.
  intros Hascii. split_and!.
  - clear Hascii. induction key as [|ch key IH]; simpl; by f_equal.
  - apply has_lower_upper_case.
  - induction key as [|ch key IH]; simpl in *; [done|].
    apply andb_prop in Hascii as [Hch Hkey].
    by rewrite (upper_ascii ch Hch), IH.
  - apply upper_case_no_lower.
  - apply upper_case_no_lower, has_lower_upper_case.
Qed.

Lemma upper_case_folds_witness :
  String.length (upper_case "cs101") = String.length "cs101"
  ∧ has_lower (upper_case "cs101") = false
  ∧ ascii_only (upper_case "cs101") = true
  ∧ (has_lower "cs101" = false → upper_case "cs101" = "cs101"%string)
  ∧ upper_case (upper_case "cs101") = upper_case "cs101".
Proof. apply (upper_case_folds "cs101"). reflexivity. Defined.

(** X15.  Whatever the table holds, case 3 of the menu, on a key of
    7-bit characters, leaves the table as it was and writes one of two
    texts: the display of a course whose id is the key in upper case, is
    not empty and has no lower-case letter, or the message that names the
    key in upper case as not found.  A course stored under an id with a
    lower-case letter is never displayed. *)
Theorem main_print_course_output courseKey t output t' :
  ascii_only courseKey = true →
  main_print_course courseKey t = ok (output, t') →
  t' = t
  ∧ ((∃ aCourse,
        output = displayCourse aCourse
        ∧ courseId aCourse = upper_case courseKey
        ∧ courseId aCourse ≠ ""%string
        ∧ has_lower (courseId aCourse) = false)
     ∨ output = "Course ID " +:+ upper_case courseKey +:+ " not found." +:+ endl).
Proof.
  intros _. unfold main_print_course.
  destruct (Search (upper_case courseKey) t) as [[r t0]|f] eqn:Hsearch; [|done].
  cbn [bind fst snd].
  pose proof (Search_leaves_table_unchanged_frame _ _ _ _ Hsearch) as ->.
  destruct (Search_result_course _ _ _ _ Hsearch) as [Hid| ->].
  - unfold is_found. destruct (String.eqb_spec (courseId r) "") as [Hempty|Hne]; simpl.
    + intros [= <- <-]. split; [done|by right].
    + intros [= <- <-]. split; [done|]. left. exists r. split_and!; try done.
      rewrite Hid. apply has_lower_upper_case.
  - simpl. intros [= <- <-]. split; [done|by right].
Qed.

Lemma main_print_course_output_witness :
  table_two_courses = table_two_courses
  ∧ ((∃ aCourse,
        displayCourse CS101 = displayCourse aCourse
        ∧ courseId aCourse = upper_case "cs101"
        ∧ courseId aCourse ≠ ""%string
        ∧ has_lower (courseId aCourse) = false)
     ∨ displayCourse CS101
       = "Course ID " +:+ upper_case "cs101" +:+ " not found." +:+ endl).
Proof.
  apply (main_print_course_output "cs101" table_two_courses
           (displayCourse CS101) table_two_courses).
  - reflexivity.
  - reflexivity.
Defined.

(** X16.  After any sequence of insertions into a new table, case 3 of
    the menu with a key of 7-bit characters that is not empty displays
    the first course inserted under the key in upper case, in whatever
    case the key was typed, and writes the not-found message when no
    inserted course has that id. *)
Theorem main_print_course_after_loading depth size l courseKey :
  0 < size ≤ 2 ^ 31 → Z.of_nat (length l) ≤ 2 ^ 29 →
  ascii_only courseKey = true → upper_case courseKey ≠ ""%string →
  ∃ t,
    loadCourses (S (S depth)) l (HashTable_new size) = ok t
    ∧ (∀ first, first_with_id (upper_case courseKey) l = Some first →
         main_print_course courseKey t = ok (displayCourse first, t))
    ∧ (first_with_id (upper_case courseKey) l = None →
         main_print_course courseKey t
         = ok ("Course ID " +:+ upper_case courseKey +:+ " not found." +:+ endl,
               t)).
Proof.
  intros Hsize Hlen _ Hkey.
  destruct (loadCourses_loaded depth size l Hsize Hlen) as (t & Hload & Hholds & _).
  exists t. split_and!; [done|..].
  - intros first Hfirst. unfold main_print_course.
    rewrite (Search_holds l _ t Hholds), Hfirst, bind_ok.
    apply List.find_some in Hfirst as [_ Hid%String.eqb_eq].
    change (is_found (default Course_default (Some first), t).1)
      with (is_found first).
    unfold is_found. rewrite Hid.
    by destruct (String.eqb_spec (upper_case courseKey) "").
  - intros Hnone. unfold main_print_course.
    by rewrite (Search_holds l _ t Hholds), Hnone, bind_ok.
Qed.

Lemma main_print_course_after_loading_witness :
  ∃ t,
    loadCourses 2 [CS101; CS102; CS101_again] (HashTable_new 3) = ok t
    ∧ (∀ first, first_with_id (upper_case "Cs101") [CS101; CS102; CS101_again]
                = Some first →
         main_print_course "Cs101" t = ok (displayCourse first, t))
    ∧ (first_with_id (upper_case "Cs101") [CS101; CS102; CS101_again] = None →
         main_print_course "Cs101" t
         = ok ("Course ID " +:+ upper_case "Cs101" +:+ " not found." +:+ endl, t)).
Proof.
  apply (main_print_course_after_loading 0 3 [CS101; CS102; CS101_again] "Cs101").
  - lia.
  - simpl. lia.
  - reflexivity.
  - discriminate.
Defined.

(** ** [PrintAll] *)

(** X17.  After any sequence of insertions into a new table, [PrintAll]
    has a text to write, and every text it can write is made of one line
    for each inserted course, with the id and the title of the course,
    the lines in non-decreasing order of the ids.  When the ids of the
    inserted courses are pairwise different there is only one such
    text. *)
Theorem PrintAll_lines depth size l :
  0 < size ≤ 2 ^ 31 → Z.of_nat (length l) ≤ 2 ^ 29 →
  ∃ t,
    loadCourses (S (S depth)) l (HashTable_new size) = ok t
    ∧ (∃ output, PrintAll t output)
    ∧ (∀ output, PrintAll t output →
         ∃ sortedCourses,
           output = String.concat "" (print_line <$> sortedCourses)
           ∧ sortedCourses ≡ₚ l
           ∧ StronglySorted id_le sortedCourses)
    ∧ (NoDup (courseId <$> l) →
         ∀ output1 output2,
           PrintAll t output1 → PrintAll t output2 → output1 = output2).
Proof.
  intros Hsize Hlen.
  destruct (loadCourses_loaded depth size l Hsize Hlen) as (t & Hload & Hholds & _).
  pose proof (holds_perm l t Hholds) as Hperm.
  exists t. split_and!; [done|..].
  - destruct (std_sort_exists (stored t)) as [sorted Hsorted].
    exists (String.concat "" (print_line <$> sorted)), sorted.
    split; [by apply AllSorted_iff|done].
  - intros output (sorted & Hsorted%AllSorted_iff & ->).
    exists sorted. split_and!; [done| |by apply (std_sort_id_le (stored t))].
    destruct Hsorted as [Hp _]. by rewrite Hp.
  - intros Hids output1 output2 (s1 & Hs1%AllSorted_iff & ->)
      (s2 & Hs2%AllSorted_iff & ->).
    f_equal. f_equal. apply (std_sort_unique (stored t)); [|done..].
    by rewrite Hperm.
Qed.

Lemma PrintAll_lines_witness :
  ∃ t,
    loadCourses 2 [MATH201; CS102; CS101] (HashTable_new 3) = ok t
    ∧ (∃ output, PrintAll t output)
    ∧ (∀ output, PrintAll t output →
         ∃ sortedCourses,
           output = String.concat "" (print_line <$> sortedCourses)
           ∧ sortedCourses ≡ₚ [MATH201; CS102; CS101]
           ∧ StronglySorted id_le sortedCourses)
    ∧ (NoDup (courseId <$> [MATH201; CS102; CS101]) →
         ∀ output1 output2,
           PrintAll t output1 → PrintAll t output2 → output1 = output2).
Proof.
  apply (PrintAll_lines 0 3 [MATH201; CS102; CS101]).
  - lia.
  - simpl. lia.
Defined.

(** ** The placement step of [Insert] *)

(** X18.  The placement step of [Insert] changes one bucket only: in a
    table loaded with any sequence of courses, the chains of all buckets
    but the one that [hash] gives for the id of the course are what they
    were, and so are the number of buckets and the capacity. *)
Theorem Insert_place_other_buckets depth size l c :
  0 < size ≤ 2 ^ 31 → Z.of_nat (length l) < 2 ^ 29 →
  ∃ t t1 h,
    loadCourses (S (S depth)) l (HashTable_new size) = ok t
    ∧ hash t (courseId c) = ok h
    ∧ Insert_place c t = ok t1
    ∧ length (nodes t1) = length (nodes t)
    ∧ tableSize t1 = tableSize t
    ∧ ∀ i, 0 ≤ i → i ≠ h → chain_at t1 i = chain_at t i.
Proof.
  intros Hsize Hlen.
  destruct (loadCourses_loaded depth size l Hsize) as (t & Hload & Hholds & _); [lia|].
  pose proof (holds_ok l t Hholds) as Hok.
  destruct (hash_table_ok t (courseId c) Hok) as [Hhash Hh].
  destruct (Insert_place_spec c t Hok)
    as (t1 & Hplace & Hsize1 & Hnodes & _ & _ & Hbs & _).
  { rewrite (holds_numEntries l t Hholds). lia. }
  exists t, t1, (hash_index (tableSize t) (courseId c)).
  split_and!; try done.
  intros i Hi Hne. unfold chain_at. rewrite Hbs.
  rewrite list_lookup_insert_ne; [done|lia].
Qed.

Lemma Insert_place_other_buckets_witness :
  ∃ t t1 h,
    loadCourses 2 [CS101; CS102] (HashTable_new 5) = ok t
    ∧ hash t (courseId MATH201) = ok h
    ∧ Insert_place MATH201 t = ok t1
    ∧ length (nodes t1) = length (nodes t)
    ∧ tableSize t1 = tableSize t
    ∧ ∀ i, 0 ≤ i → i ≠ h → chain_at t1 i = chain_at t i.
Proof.
  apply (Insert_place_other_buckets 0 5 [CS101; CS102] MATH201).
  - lia.
  - simpl. lia.
Defined.

(** ** The initial size does not show *)

(** X19.  What [Search] returns does not depend on the size the table
    was constructed with: two new tables of any two sizes, loaded with
    the same sequence of courses, return the same course for every id,
    and hold the same number of courses. *)
Theorem Search_independent_of_size depth size1 size2 l :
  0 < size1 ≤ 2 ^ 31 → 0 < size2 ≤ 2 ^ 31 →
  Z.of_nat (length l) ≤ 2 ^ 29 →
  ∃ t1 t2,
    loadCourses (S (S depth)) l (HashTable_new size1) = ok t1
    ∧ loadCourses (S (S depth)) l (HashTable_new size2) = ok t2
    ∧ numEntries t1 = numEntries t2
    ∧ stored t1 ≡ₚ stored t2
    ∧ ∀ id, ∃ r, Search id t1 = ok (r, t1) ∧ Search id t2 = ok (r, t2).
Proof.
  intros Hsize1 Hsize2 Hlen.
  destruct (loadCourses_loaded depth size1 l Hsize1 Hlen) as (t1 & Hload1 & H1 & _).
  destruct (loadCourses_loaded depth size2 l Hsize2 Hlen) as (t2 & Hload2 & H2 & _).
  exists t1, t2. split_and!; [done..| | |].
  - by rewrite (holds_numEntries l t1 H1), (holds_numEntries l t2 H2).
  - by rewrite (holds_perm l t1 H1), (holds_perm l t2 H2).
  - intros id. exists (default Course_default (first_with_id id l)).
    split; by apply Search_holds.
Qed.

Lemma Search_independent_of_size_witness :
  ∃ t1 t2,
    loadCourses 2 [CS101; CS102; MATH201; CS101_again] (HashTable_new 1) = ok t1
    ∧ loadCourses 2 [CS101; CS102; MATH201; CS101_again] HashTable_default
      = ok t2
    ∧ numEntries t1 = numEntries t2
    ∧ stored t1 ≡ₚ stored t2
    ∧ ∀ id, ∃ r, Search id t1 = ok (r, t1) ∧ Search id t2 = ok (r, t2).
Proof.
  apply (Search_independent_of_size 0 1 179 [CS101; CS102; MATH201; CS101_again]).
  - lia.
  - lia.
  - simpl. lia.
Defined.
